(** * ThreadPool (src/util/ThreadPool.cpp): an interleaving model

    The pool is a mutex-protected FIFO of [std::function<void()>], a
    condition variable, an atomic stop flag and a vector of worker threads
    that all run [ThreadPool::work].  The embedding is a small-step
    interleaving semantics: every thread carries a program counter that
    names the source line it is about to execute, one [action] lets one
    thread execute one such line, and a schedule is a list of actions.
    All definitions are executable, so concrete schedules evaluate by
    computation.

    Conventions.
    - One client thread drives the public interface, as [main] does.
    - A task is opaque to the pool: it has an identity and one of three
      ways to end (return, throw something derived from [std::exception],
      throw anything else).  Task bodies terminate and do not touch the
      pool itself.
    - [size_t concurrency] is a [nat]; thread creation never fails.
    - [queueLock] is the identity of its owner.  [hasTask] has no field of
      its own: the threads blocked on it are the workers whose program
      counter is [WSleep], and a notified or spuriously woken thread has
      to take the mutex again before [wait] re-evaluates its predicate.
    - A step that is not enabled (a lock that is taken, a [join] on a
      running thread, a blocked [wait]) yields [None]; undefined behaviour
      and [std::terminate] are recorded in [fault] and end the run.
    - The trace is instrumentation: it records, oldest event first, what
      the threads did.  No step ever reads it. *)

From Stdlib Require Import String Lia.
From stdpp Require Import base tactics option list.

Local Open Scope nat_scope.
Set Warnings "-clear-no-such-hyp".

(** ** Tasks *)

Inductive outcome :=
| Returns
| ThrowsStd (what : string)
| ThrowsOther.

Record callable := Callable { ident : nat; behaviour : outcome }.

(** [std::function<void()>]: [None] is the empty function object, the
    value of the local [task] declared on line 36. *)
Definition task := option callable.

(** [if (task)]: the [explicit operator bool] of [std::function]. *)
Definition has_target (t : task) : bool :=
  match t with Some _ => true | None => false end.

(** ** Threads *)

Inductive tid := Main | Worker (i : nat).

(** Program counter of a worker thread inside [ThreadPool::work]. *)
Inductive wpc :=
| WLock                  (* 36, 41: task is empty; acquire queueLock *)
| WPred                  (* 44-46: evaluate the wait predicate, lock held *)
| WBlock                 (* 44: predicate was false; about to unlock and sleep *)
| WSleep                 (* 44: blocked inside hasTask.wait, lock released *)
| WWake                  (* 44: notified or woken spuriously; reacquire the lock *)
| WStopCheck             (* 49: if (shouldStop && runqueue.empty()) *)
| WEmptyCheck            (* 53: if (!runqueue.empty()) *)
| WPop                   (* 55-56: task = move(front()); pop() *)
| WUnlock (t : task)     (* 58: end of the critical section *)
| WGuard (t : task)      (* 60: if (task) *)
| WInvoke (t : task)     (* 64: task() is being called *)
| WRunning (c : callable)(* 64: inside the body of the task *)
| WReturned              (* 50: work returned; the handle is still joinable *)
| WJoined.               (* the handle has been joined: joinable() is false *)

(** Program counter shared by the two shutdown bodies. *)
Inductive spc :=
| SStore                 (* 88 / 114: shouldStop = true *)
| SNotifyAll             (* 91 / 116: hasTask.notify_all() *)
| SJoin (i : nat).       (* 94-96 / 117-119: workers[i].join() *)

(** Program counter of the client thread. *)
Inductive cpc :=
| CCtor (concurrency i : nat)  (* 82-84: constructor loop, i threads spawned *)
| CIdle                        (* between two calls *)
| CSubmitLock (t : task)       (* 105 *)
| CSubmitEmplace (t : task)    (* 107 *)
| CSubmitUnlock (t : task)     (* 108 *)
| CSubmitNotify (t : task)     (* 110 *)
| CDtor (p : spc)              (* 87-97 *)
| CWaitForAll (p : spc)        (* 113-120 *)
| CDestroyed.                  (* the destructor has returned *)

Inductive fault_kind :=
| PopEmpty (i : nat)     (* front()/pop() on an empty std::queue: undefined *)
| JoinTerminate (i : nat)(* join() threw inside the destructor: std::terminate *)
| JoinThrows (i : nat).  (* join() threw std::system_error out of waitForAll *)

Inductive event :=
| EvSpawn (i : nat)
| EvEnqueue (t : task)
| EvNotifyOne (woken : option nat)
| EvStoreStop
| EvNotifyAll
| EvJoin (i : nat)
| EvDequeue (i : nat) (t : task)
| EvSkip (i : nat) (t : task)
| EvCall (i : nat) (c : callable)
| EvReturn (i : nat) (c : callable)
| EvCerr (i : nat) (t : task) (what : option string)
| EvExit (i : nat).

(** ** State of the program *)

Record state := State {
  shouldStop : bool;
  workers : list wpc;
  runqueue : list task;
  queueLock : option tid;
  client : cpc;
  fault : option fault_kind;
  trace : list event
}.

Definition with_stop (b : bool) (s : state) : state :=
  State b (workers s) (runqueue s) (queueLock s) (client s) (fault s) (trace s).
Definition with_workers (ws : list wpc) (s : state) : state :=
  State (shouldStop s) ws (runqueue s) (queueLock s) (client s) (fault s) (trace s).
Definition with_queue (q : list task) (s : state) : state :=
  State (shouldStop s) (workers s) q (queueLock s) (client s) (fault s) (trace s).
Definition with_lock (o : option tid) (s : state) : state :=
  State (shouldStop s) (workers s) (runqueue s) o (client s) (fault s) (trace s).
Definition with_client (c : cpc) (s : state) : state :=
  State (shouldStop s) (workers s) (runqueue s) (queueLock s) c (fault s) (trace s).
Definition with_fault (f : fault_kind) (s : state) : state :=
  State (shouldStop s) (workers s) (runqueue s) (queueLock s) (client s) (Some f) (trace s).
Definition emit (e : event) (s : state) : state :=
  State (shouldStop s) (workers s) (runqueue s) (queueLock s) (client s) (fault s)
        (trace s ++ [e]).
Definition with_pc (i : nat) (p : wpc) (s : state) : state :=
  with_workers (<[i := p]> (workers s)) s.

(** [runqueue.empty()] *)
Definition empty (q : list task) : bool :=
  match q with [] => true | _ :: _ => false end.

(** ** ThreadPool::work, one line at a time *)

(** The predicate handed to [hasTask.wait] on lines 44-46. *)
Definition wait_pred (s : state) : bool :=
  shouldStop s || negb (empty (runqueue s)).

Definition work_step (i : nat) (p : wpc) (s : state) : option state :=
  match p with
  | WLock | WWake =>
      match queueLock s with
      | None => Some (with_pc i WPred (with_lock (Some (Worker i)) s))
      | Some _ => None
      end
  | WPred =>
      if wait_pred s then Some (with_pc i WStopCheck s)
      else Some (with_pc i WBlock s)
  | WBlock => Some (with_pc i WSleep (with_lock None s))
  | WSleep => None
  | WStopCheck =>
      if shouldStop s && empty (runqueue s)
      then Some (emit (EvExit i) (with_pc i WReturned (with_lock None s)))
      else Some (with_pc i WEmptyCheck s)
  | WEmptyCheck =>
      if negb (empty (runqueue s)) then Some (with_pc i WPop s)
      else Some (with_pc i (WUnlock None) s)
  | WPop =>
      match runqueue s with
      | [] => Some (with_fault (PopEmpty i) s)
      | t :: q => Some (emit (EvDequeue i t) (with_pc i (WUnlock t) (with_queue q s)))
      end
  | WUnlock t => Some (with_pc i (WGuard t) (with_lock None s))
  | WGuard t =>
      if has_target t then Some (with_pc i (WInvoke t) s)
      else Some (emit (EvSkip i t) (with_pc i WLock s))
  | WInvoke t =>
      match t with
      | Some c => Some (emit (EvCall i c) (with_pc i (WRunning c) s))
      | None =>
          (* std::bad_function_call is a std::exception: first handler *)
          Some (emit (EvCerr i None (Some "bad_function_call"%string)) (with_pc i WLock s))
      end
  | WRunning c =>
      match behaviour c with
      | Returns => Some (emit (EvReturn i c) (with_pc i WLock s))
      | ThrowsStd what => Some (emit (EvCerr i (Some c) (Some what)) (with_pc i WLock s))
      | ThrowsOther => Some (emit (EvCerr i (Some c) None) (with_pc i WLock s))
      end
  | WReturned | WJoined => None
  end.

(** ** The condition variable *)

Definition is_sleeping (p : wpc) : bool :=
  match p with WSleep => true | _ => false end.

(** [hasTask.notify_all()]: every thread blocked in [wait] is released. *)
Definition wake_all (ws : list wpc) : list wpc :=
  map (fun p => if is_sleeping p then WWake else p) ws.

(** [hasTask.notify_one()]: releases one blocked thread if there is one;
    which one is not specified, so the schedule names it ([k]).  With no
    thread blocked the call does nothing. *)
Definition notify_one (k : nat) (s : state) : option state :=
  if existsb is_sleeping (workers s) then
    match workers s !! k with
    | Some WSleep => Some (emit (EvNotifyOne (Some k)) (with_pc k WWake s))
    | _ => None
    end
  else Some (emit (EvNotifyOne None) s).

(** ** The public interface, one line at a time *)

(** [ThreadPool::~ThreadPool], lines 87-97.  [join] on a handle that is
    not joinable throws [std::system_error]; a destructor is [noexcept]. *)
Definition dtor_step (p : spc) (s : state) : option state :=
  match p with
  | SStore => Some (emit EvStoreStop (with_client (CDtor SNotifyAll) (with_stop true s)))
  | SNotifyAll =>
      Some (emit EvNotifyAll (with_client (CDtor (SJoin 0)) (with_workers (wake_all (workers s)) s)))
  | SJoin i =>
      match workers s !! i with
      | None => Some (with_client CDestroyed s)
      | Some WReturned => Some (emit (EvJoin i) (with_client (CDtor (SJoin (S i))) (with_pc i WJoined s)))
      | Some WJoined => Some (with_fault (JoinTerminate i) s)
      | Some _ => None
      end
  end.

(** [ThreadPool::waitForAll], lines 113-120. *)
Definition waitForAll_step (p : spc) (s : state) : option state :=
  match p with
  | SStore => Some (emit EvStoreStop (with_client (CWaitForAll SNotifyAll) (with_stop true s)))
  | SNotifyAll =>
      Some (emit EvNotifyAll (with_client (CWaitForAll (SJoin 0)) (with_workers (wake_all (workers s)) s)))
  | SJoin i =>
      match workers s !! i with
      | None => Some (with_client CIdle s)
      | Some WReturned => Some (emit (EvJoin i) (with_client (CWaitForAll (SJoin (S i))) (with_pc i WJoined s)))
      | Some WJoined => Some (with_fault (JoinThrows i) s)
      | Some _ => None
      end
  end.

(** The client thread: constructor (80-85), [submitTask] (103-111) and
    the two shutdown bodies. *)
Definition client_step (k : nat) (c : cpc) (s : state) : option state :=
  match c with
  | CCtor n i =>
      if i <? n
      then Some (emit (EvSpawn i) (with_client (CCtor n (S i)) (with_workers (workers s ++ [WLock]) s)))
      else Some (with_client CIdle s)
  | CIdle => None
  | CSubmitLock t =>
      match queueLock s with
      | None => Some (with_client (CSubmitEmplace t) (with_lock (Some Main) s))
      | Some _ => None
      end
  | CSubmitEmplace t =>
      Some (emit (EvEnqueue t) (with_client (CSubmitUnlock t) (with_queue (runqueue s ++ [t]) s)))
  | CSubmitUnlock t => Some (with_client (CSubmitNotify t) (with_lock None s))
  | CSubmitNotify t =>
      match notify_one k s with
      | Some s' => Some (with_client CIdle s')
      | None => None
      end
  | CDtor p => dtor_step p s
  | CWaitForAll p => waitForAll_step p s
  | CDestroyed => None
  end.

(** Calls the client can make once the pool is constructed. *)
Inductive op :=
| SubmitTask (t : task)
| WaitForAll
| Destroy.

Definition call (o : op) (s : state) : option state :=
  match client s with
  | CIdle =>
      match o with
      | SubmitTask t => Some (with_client (CSubmitLock t) s)
      | WaitForAll => Some (with_client (CWaitForAll SStore) s)
      | Destroy => Some (with_client (CDtor SStore) s)
      end
  | _ => None
  end.

(** ** Schedules *)

Inductive action :=
| Call (o : op)          (* the client enters a member function *)
| Client (k : nat)       (* the client executes its next line *)
| Work (i : nat)         (* worker i executes its next line *)
| Spurious (i : nat).    (* worker i wakes up without a notification *)

Definition exec (a : action) (s : state) : option state :=
  match fault s with
  | Some _ => None
  | None =>
      match a with
      | Call o => call o s
      | Client k => client_step k (client s) s
      | Work i =>
          match workers s !! i with
          | Some p => work_step i p s
          | None => None
          end
      | Spurious i =>
          match workers s !! i with
          | Some WSleep => Some (with_pc i WWake s)
          | _ => None
          end
      end
  end.

Fixpoint run (sched : list action) (s : state) : option state :=
  match sched with
  | [] => Some s
  | a :: sched' =>
      match exec a s with
      | Some s' => run sched' s'
      | None => None
      end
  end.

(** [ThreadPool(size_t concurrency) : shouldStop(false)] with the members
    default-initialised, at the head of the constructor loop. *)
Definition init (concurrency : nat) : state :=
  State false [] [] None (CCtor concurrency 0) None [].

Definition reachable (concurrency : nat) (s : state) : Prop :=
  exists sched, run sched (init concurrency) = Some s.

(** * Observations on states and traces *)

(** The predicates and projections in which the properties of the pool
    are stated, followed by the concrete pools on which they are exercised. *)

(** Lines on which a worker owns [queueLock]. *)
Definition wholds (p : wpc) : bool :=
  match p with
  | WPred | WBlock | WStopCheck | WEmptyCheck | WPop | WUnlock _ => true
  | _ => false
  end.

(** Lines on which the client owns [queueLock]. *)
Definition cholds (c : cpc) : bool :=
  match c with
  | CSubmitEmplace _ | CSubmitUnlock _ => true
  | _ => false
  end.

(** Whoever is inside a critical section is the owner of the mutex. *)
Definition lock_inv (s : state) : Prop :=
  (forall i p, workers s !! i = Some p -> wholds p = true -> queueLock s = Some (Worker i))
  /\ (cholds (client s) = true -> queueLock s = Some Main).

(** The queue cannot change under a worker that holds the mutex, and the
    flag only ever goes up, so what the predicate established on line 45
    still holds on lines 49, 53 and 55. *)
Definition wait_post (s : state) (p : wpc) : Prop :=
  match p with
  | WStopCheck => shouldStop s = true \/ runqueue s <> []
  | WEmptyCheck | WPop => runqueue s <> []
  | WBlock => runqueue s = []
  | _ => True
  end.

(** Every worker knows what its line entitles it to know. *)
Definition wait_inv (s : state) : Prop :=
  forall i p, workers s !! i = Some p -> wait_post s p.

(** The owner of the mutex is inside a critical section. *)
Definition owner_inv (s : state) : Prop :=
  match queueLock s with
  | None => True
  | Some Main => cholds (client s) = true
  | Some (Worker i) => exists p, workers s !! i = Some p /\ wholds p = true
  end.

(** [workers] grows only inside the constructor loop, one handle per
    iteration, and has [concurrency] handles from then on. *)
Definition size_inv (n : nat) (s : state) : Prop :=
  match client s with
  | CCtor m i => m = n /\ length (workers s) = i /\ i <= n
  | _ => length (workers s) = n
  end.

(** Tasks in the order [submitTask] appended them to [runqueue]. *)
Definition enqueued (tr : list event) : list task :=
  omap (fun e => match e with EvEnqueue t => Some t | _ => None end) tr.

(** Tasks in the order the workers took them off [runqueue]. *)
Definition dequeued (tr : list event) : list task :=
  omap (fun e => match e with EvDequeue _ t => Some t | _ => None end) tr.

(** Tasks taken by worker [i], in order. *)
Definition dequeued_by (i : nat) (tr : list event) : list task :=
  omap (fun e => match e with
                 | EvDequeue j t => if decide (j = i) then Some t else None
                 | _ => None
                 end) tr.

(** Tasks worker [i] is done with, in order: skipped by the guard on
    line 60, returned from, or reported by one of the two handlers. *)
Definition finished_by (i : nat) (tr : list event) : list task :=
  omap (fun e => match e with
                 | EvSkip j t | EvCerr j t _ => if decide (j = i) then Some t else None
                 | EvReturn j c => if decide (j = i) then Some (Some c) else None
                 | _ => None
                 end) tr.

(** Number of stores to [shouldStop]. *)
Definition stores (tr : list event) : nat :=
  length (omap (fun e => match e with EvStoreStop => Some () | _ => None end) tr).

(** Number of [notify_one] calls. *)
Definition signals (tr : list event) : nat :=
  length (omap (fun e => match e with EvNotifyOne _ => Some () | _ => None end) tr).

(** The worker an event belongs to. *)
Definition event_worker (e : event) : option nat :=
  match e with
  | EvDequeue i _ | EvSkip i _ | EvCall i _ | EvReturn i _ | EvCerr i _ _ | EvExit i => Some i
  | _ => None
  end.

(** The task a worker has taken and is not yet done with. *)
Definition held (p : wpc) : list task :=
  match p with
  | WUnlock t | WGuard t | WInvoke t => [t]
  | WRunning c => [Some c]
  | _ => []
  end.

(** The queue loses nothing and keeps the order of submission. *)
Definition fifo_inv (s : state) : Prop :=
  enqueued (trace s) = dequeued (trace s) ++ runqueue s.

(** Every worker is done with the tasks it took, except the one it holds. *)
Definition held_inv (s : state) : Prop :=
  forall i, dequeued_by i (trace s)
            = finished_by i (trace s) ++ from_option held [] (workers s !! i).

(** An event of a worker names one of the first [m] workers. *)
Definition event_ok (m : nat) (e : event) : Prop :=
  from_option (fun i => i < m) True (event_worker e).

(** Events name existing workers. *)
Definition events_inv (s : state) : Prop :=
  Forall (event_ok (length (workers s))) (trace s).

(** [work] has returned. *)
Definition finished (p : wpc) : bool :=
  match p with WReturned | WJoined => true | _ => false end.

(** The client is inside the constructor. *)
Definition in_ctor (c : cpc) : bool :=
  match c with CCtor _ _ => true | _ => false end.

(** The client is inside a shutdown body, past the store. *)
Definition stopping (c : cpc) : bool :=
  match c with
  | CDtor SNotifyAll | CDtor (SJoin _) | CWaitForAll SNotifyAll | CWaitForAll (SJoin _) => true
  | _ => false
  end.

(** The flag is true exactly when it has been stored to; a worker has
    returned, or the client is past the store, only if it is true; it is
    false throughout the constructor. *)
Definition stop_inv (s : state) : Prop :=
  (shouldStop s = false -> stores (trace s) = 0)
  /\ (stores (trace s) = 0 -> shouldStop s = false)
  /\ (forall i p, workers s !! i = Some p -> finished p = true -> shouldStop s = true)
  /\ (stopping (client s) = true -> shouldStop s = true)
  /\ (in_ctor (client s) = true -> shouldStop s = false).

(** Index of the handle the client is about to join. *)
Definition joining (c : cpc) : option nat :=
  match c with
  | CDtor (SJoin i) | CWaitForAll (SJoin i) => Some i
  | _ => None
  end.

(** The handles before the one being joined are joined. *)
Definition join_inv (s : state) : Prop :=
  forall i j, joining (client s) = Some i -> j < i -> workers s !! j = Some WJoined.

(** During the first shutdown nothing is appended to the queue, and a
    worker returns only when it sees the queue empty: as soon as one
    worker has returned the queue is empty and stays so. *)
Definition drain_inv (s : state) : Prop :=
  stopping (client s) = true -> stores (trace s) = 1 ->
  forall i p, workers s !! i = Some p -> finished p = true -> runqueue s = [].



(** [front]/[pop] is never executed on an empty queue. *)
Definition fault_inv (s : state) : Prop :=
  forall i, fault s <> Some (PopEmpty i).

(** Not a report of [std::bad_function_call]. *)
Definition no_bad_call (e : event) : Prop :=
  match e with EvCerr _ None _ => False | _ => True end.

(** No worker is calling an empty function object, and none ever did. *)
Definition guard_inv (s : state) : Prop :=
  (forall i, workers s !! i <> Some (WInvoke None))
  /\ Forall no_bad_call (trace s).

(** What a worker writes when the call on line 64 ends: nothing for a
    normal return (recorded as [EvReturn]), one line on [std::cerr] from
    the first handler for a [std::exception], one from the second handler
    for anything else. *)
Definition completion (i : nat) (c : callable) : event :=
  match behaviour c with
  | Returns => EvReturn i c
  | ThrowsStd what => EvCerr i (Some c) (Some what)
  | ThrowsOther => EvCerr i (Some c) None
  end.

(** Workers whose [work] has not returned. *)
Definition live (ws : list wpc) : nat :=
  length (List.filter (fun p => negb (finished p)) ws).




(** A shutdown that starts after an earlier one has returned finds the
    first handle already joined: it stops at the first [join]. *)
Definition rejoin_inv (s : state) : Prop :=
  (2 <= stores (trace s) \/ (1 <= stores (trace s) /\ stopping (client s) = false)) ->
  (forall p, workers s !! 0 = Some p -> p = WJoined)
  /\ (forall i, joining (client s) = Some i -> i = 0).

(** Calls of a shutdown entry point in a schedule. *)
Definition shutdown_calls (sched : list action) : nat :=
  length (List.filter (fun a => match a with
                             | Call WaitForAll | Call Destroy => true
                             | _ => false
                             end) sched).

(** The client stands on the store of line 88 or 114. *)
Definition at_store (c : cpc) : bool :=
  match c with CDtor SStore | CWaitForAll SStore => true | _ => false end.

(** Every event that ends a task is the one its way of ending dictates. *)
Definition finish_ok (e : event) : Prop :=
  match e with
  | EvSkip _ t => t = None
  | EvReturn i c => completion i c = e
  | EvCerr i (Some c) _ => completion i c = e
  | EvCerr _ None _ => False
  | _ => True
  end.

(** Every task ended the way its body ends. *)
Definition finish_inv (s : state) : Prop := Forall finish_ok (trace s).






(** ** Further observations *)

(** Tasks the workers are done with, in the order they were done with. *)
Definition completed (tr : list event) : list task :=
  omap (fun e => match e with
                 | EvSkip _ t | EvCerr _ t _ => Some t
                 | EvReturn _ c => Some (Some c)
                 | _ => None
                 end) tr.

(** Tasks handed to [submitTask] by the calls of a schedule, in call order. *)
Definition submitted (sched : list action) : list task :=
  omap (fun a => match a with Call (SubmitTask t) => Some t | _ => None end) sched.


(** The task of a [submitTask] that has not reached line 107 yet. *)
Definition in_flight (c : cpc) : list task :=
  match c with CSubmitLock t | CSubmitEmplace t => [t] | _ => [] end.

(** During the first shutdown the joined handles are the ones before the
    index of the join loop; a fault needs a second store to the flag. *)
Definition first_inv (s : state) : Prop :=
  (stores (trace s) = 1 -> stopping (client s) = true ->
     forall j, workers s !! j = Some WJoined ->
     exists i, joining (client s) = Some i /\ j < i)
  /\ (fault s <> None -> 2 <= stores (trace s)).


(** What holds once the destructor of a pool with a worker has returned. *)
Definition destroyed_inv (n : nat) (s : state) : Prop :=
  0 < n -> client s = CDestroyed ->
  fault s = None /\ stores (trace s) = 1 /\ runqueue s = []
  /\ (forall j p, workers s !! j = Some p -> p = WJoined)
  /\ enqueued (trace s) = dequeued (trace s)
  /\ (forall j, dequeued_by j (trace s) = finished_by j (trace s)).

(** Worker [i] is blocked in [wait] while the client is in the join loop
    at or before its handle. *)
Definition missed (i : nat) (s : state) : Prop :=
  workers s !! i = Some WSleep
  /\ exists j, joining (client s) = Some j /\ j <= i.






(** Concrete pools used to exercise the theorems. *)
Module Demo.
Definition c0 : callable := Callable 0 Returns.
Definition c1 : callable := Callable 1 (ThrowsStd "boom").

Definition construct (n : nat) : list action := repeat (Client 0) (S n).
Definition submit (k : nat) (t : task) : list action :=
  [Call (SubmitTask t); Client k; Client k; Client k; Client k].
Definition shutdown (o : op) (n : nat) : list action :=
  Call o :: repeat (Client 0) (3 + n).

Definition after (n : nat) (sched : list action) : state :=
  default (init n) (run sched (init n)).

(** One worker, two tasks queued before the worker first runs; the
    worker is inside the first one, which will throw. *)
Definition sched_running : list action :=
  construct 1 ++ submit 0 (Some c1) ++ submit 0 (Some c0) ++ repeat (Work 0) 8.
Definition s_running : state := Eval vm_compute in after 1 sched_running.




(** One worker about to pop. *)
Definition sched_pop : list action :=
  construct 1 ++ submit 0 (Some c0) ++ repeat (Work 0) 4.
Definition s_pop : state := Eval vm_compute in after 1 sched_pop.

(** One worker that has taken an empty function object. *)
Definition sched_guard_empty : list action :=
  construct 1 ++ submit 0 None ++ repeat (Work 0) 6.
Definition s_guard_empty : state := Eval vm_compute in after 1 sched_guard_empty.

(** One worker, two tasks, then the destructor up to the end of its
    join loop. *)
Definition sched_joined : list action :=
  construct 1 ++ submit 0 (Some c1) ++ submit 0 (Some c0)
  ++ [Call Destroy; Client 0; Client 0] ++ repeat (Work 0) 21 ++ [Client 0].
Definition s_destroyed : state :=
  Eval vm_compute in after 1 (sched_joined ++ [Client 0]).
End Demo.

(** * Reasoning about schedules *)

Lemma run_app (l1 l2 : list action) (s : state) :
  run (l1 ++ l2) s = match run l1 s with Some s' => run l2 s' | None => None end.
Proof.
  revert s; induction l1 as [|a l1 IH]; intros s; simpl; [done|].
  destruct (exec a s); [apply IH | done].
Qed.

Lemma reachable_init n : reachable n (init n).
Proof. by exists []. Qed.

Lemma reachable_step n s a s' :
  reachable n s -> exec a s = Some s' -> reachable n s'.
Proof.
  intros [l Hl] Ha. exists (l ++ [a]). rewrite run_app, Hl. simpl. by rewrite Ha.
Qed.


(** Invariants are proved by induction on the schedule, last action first. *)
Lemma reachable_ind' n (P : state -> Prop) :
  P (init n) ->
  (forall s a s', reachable n s -> P s -> exec a s = Some s' -> P s') ->
  forall s, reachable n s -> P s.
Proof.
  intros H0 Hstep s [l Hl]. revert s Hl.
  induction l as [|a l IH] using rev_ind; intros s Hl.
  - simpl in Hl. by simplify_eq.
  - rewrite run_app in Hl. destruct (run l (init n)) as [s0|] eqn:E; [|done].
    simpl in Hl. destruct (exec a s0) as [s1|] eqn:Ea; [|done]. simplify_eq.
    eapply Hstep; [by exists l | by apply IH | done].
Qed.

(** Case analysis of one step: every way [exec a s] can be [Some s']. *)
Ltac exec_inv H :=
  unfold exec in H;
  match type of H with
  | match fault ?s with _ => _ end = _ => destruct (fault s) eqn:?; [discriminate H|]
  end;
  match type of H with
  | match ?a with _ => _ end = _ => destruct a
  end;
  [ unfold call in H
  | unfold client_step, dtor_step, waitForAll_step, notify_one in H
  | match type of H with
    | match ?o with _ => _ end = _ => destruct o as [[]|] eqn:?; [..|discriminate H]
    end; simpl in H
  | idtac ];
  repeat case_match; simplify_eq.

Lemma lookup_with_pc (l : list wpc) i j p q :
  <[i := p]> l !! j = Some q ->
  (i = j /\ q = p /\ i < length l) \/ (i <> j /\ l !! j = Some q).
Proof. rewrite list_lookup_insert_Some. naive_solver. Qed.

Lemma lookup_spawn (l : list wpc) j q :
  (l ++ [WLock]) !! j = Some q ->
  l !! j = Some q \/ (j = length l /\ q = WLock).
Proof.
  rewrite lookup_app_Some. intros [?|[? Hq]]; [by left|right].
  destruct (j - length l) as [|k] eqn:E; simpl in Hq; [|by destruct k].
  split; [lia | congruence].
Qed.

Lemma lookup_wake_all (l : list wpc) j q :
  wake_all l !! j = Some q ->
  exists p, l !! j = Some p /\ q = (if is_sleeping p then WWake else p).
Proof.
  unfold wake_all. rewrite list_lookup_fmap. destruct (l !! j); naive_solver.
Qed.

(** Tactics shared by the step lemmas of the invariants. *)
Ltac split_lookup Hj :=
  first
  [ apply lookup_with_pc in Hj as [(? & ? & ?)|[? Hj]]
  | apply lookup_spawn in Hj as [Hj|[? ?]]
  | apply lookup_wake_all in Hj as (? & Hj & ?)
  | idtac ]; simplify_eq.

Ltac use_all H :=
  repeat match goal with
  | Hl : workers _ !! _ = Some _ |- _ =>
      let X := fresh "U" in pose proof (H _ _ Hl) as X; simpl in X; revert Hl
  end; intros.

Ltac rew_fields :=
  repeat match goal with
  | E : client _ = _ |- _ => rewrite E in *
  | E : queueLock _ = _ |- _ => rewrite E in *
  | E : shouldStop _ = _ |- _ => rewrite E in *
  | E : runqueue _ = _ |- _ => rewrite E in *
  end.

Ltac finish :=
  rew_fields; simpl in *;
  try done; try (intuition congruence);
  try (match goal with x : wpc |- _ => destruct x; simpl in *; intuition congruence end).

(** A step appends at most one event, a schedule a list of them. *)
Lemma exec_trace s a s' :
  exec a s = Some s' -> trace s' = trace s \/ exists e, trace s' = trace s ++ [e].
Proof. intros H. exec_inv H; simpl; eauto. Qed.


(** ** Mutual exclusion *)

Lemma lock_inv_step s a s' : lock_inv s -> exec a s = Some s' -> lock_inv s'.
Proof.
  intros [Hw Hc] H. exec_inv H.
  all: split; simpl; [intros j q Hj Hq; split_lookup Hj|]; simpl in *.
  all: use_all Hw.
  all: finish.
Qed.

Lemma lock_inv_reachable n s : reachable n s -> lock_inv s.
Proof.
  induction 1 as [|s a s' _ IH Ha] using reachable_ind'.
  - split; [intros i p Hi; by destruct i | done].
  - by eapply lock_inv_step.
Qed.

(** ** What a worker knows after the wait *)

Lemma wait_inv_step s a s' :
  lock_inv s -> wait_inv s -> exec a s = Some s' -> wait_inv s'.
Proof.
  intros [Hl Hc] Hw H. exec_inv H.
  all: intros j q Hj; split_lookup Hj; simpl in *.
  all: use_all Hw; use_all Hl.
  all: unfold wait_post, wait_pred in *; simpl in *.
  all: destruct (shouldStop s) eqn:?; destruct (runqueue s) eqn:?; finish.
Qed.

Lemma wait_inv_reachable n s : reachable n s -> wait_inv s.
Proof.
  induction 1 as [|s a s' Hr IH Ha] using reachable_ind'.
  - intros i p Hi; by destruct i.
  - eapply wait_inv_step; eauto using lock_inv_reachable.
Qed.

Lemma lookup_with_pc_ne (l : list wpc) i j p q :
  i <> j -> l !! j = Some q -> <[i := p]> l !! j = Some q.
Proof. intros. by rewrite list_lookup_insert_ne. Qed.

Lemma lookup_with_pc_eq (l : list wpc) i p q :
  l !! i = Some q -> <[i := p]> l !! i = Some p.
Proof. intros H. apply list_lookup_insert_eq. by eapply lookup_lt_Some. Qed.

Lemma lookup_wake_all_awake (l : list wpc) j q :
  l !! j = Some q -> is_sleeping q = false -> wake_all l !! j = Some q.
Proof. intros H Hq. unfold wake_all. rewrite list_lookup_fmap, H. simpl. by rewrite Hq. Qed.

Lemma owner_inv_step s a s' :
  lock_inv s -> owner_inv s -> exec a s = Some s' -> owner_inv s'.
Proof.
  intros [Hl Hc] Ho H. exec_inv H; unfold owner_inv in *; simpl in *.
  all: rew_fields; simpl in *; try done.
  all: try (eexists; split; [by eapply lookup_with_pc_eq|done]).
  all: destruct (queueLock s) as [[|o]|] eqn:Eo; try done.
  all: destruct Ho as (p & Hp & Hh).
  all: use_all Hl.
  all: match goal with
       | |- exists _, <[?i:=?x]> _ !! ?o = Some _ /\ _ =>
           destruct (decide (i = o)) as [->|Hne];
           [ simplify_eq; simpl in *;
             first [ done | exists x; split; [by eapply lookup_with_pc_eq | finish] ]
           | exists p; split; [by apply lookup_with_pc_ne | done] ]
       | |- exists _, (_ ++ _) !! _ = Some _ /\ _ =>
           exists p; split; [by apply lookup_app_l_Some | done]
       | |- exists _, wake_all _ !! _ = Some _ /\ _ =>
           exists p; split; [apply lookup_wake_all_awake; [done|by destruct p] | done]
       | _ => by exists p
       end.
Qed.

Lemma owner_inv_reachable n s : reachable n s -> owner_inv s.
Proof.
  induction 1 as [|s a s' Hr IH Ha] using reachable_ind'; [done|].
  eapply owner_inv_step; eauto using lock_inv_reachable.
Qed.

(** ** The vector of workers *)

Lemma size_inv_step n s a s' : size_inv n s -> exec a s = Some s' -> size_inv n s'.
Proof.
  intros Hs H. exec_inv H; unfold size_inv in *; simpl in *.
  all: rew_fields; simpl in *.
  all: rewrite ?length_insert, ?length_app, ?length_map; simpl.
  all: try match goal with H : (_ <? _) = _ |- _ =>
         first [apply Nat.ltb_lt in H | apply Nat.ltb_ge in H] end.
  all: try done; try lia.
  all: unfold wake_all; rewrite ?length_map; try done.
  all: destruct (client s); try done; lia.
Qed.

Lemma size_inv_reachable n s : reachable n s -> size_inv n s.
Proof.
  induction 1 as [|s a s' Hr IH Ha] using reachable_ind'.
  - unfold size_inv; simpl. lia.
  - by eapply size_inv_step.
Qed.

Lemma workers_bound n s : reachable n s -> length (workers s) <= n.
Proof.
  intros H%size_inv_reachable. unfold size_inv in H.
  destruct (client s); lia.
Qed.

(** ** Reading the trace *)

Ltac trace_simpl :=
  unfold enqueued, dequeued, dequeued_by, finished_by, stores, signals in *;
  rewrite ?omap_app; simpl; rewrite ?app_nil_r, ?length_app; simpl.

(** ** The queue loses nothing and keeps the order *)

Lemma fifo_inv_step s a s' :
  wait_inv s -> fifo_inv s -> exec a s = Some s' -> fifo_inv s'.
Proof.
  intros Hw Hf H. exec_inv H; unfold fifo_inv in *; simpl in *.
  all: trace_simpl; try done.
  - rewrite Hf. by rewrite app_assoc.
  - rewrite Hf. match goal with E : runqueue s = _ |- _ => rewrite E end.
    by rewrite <- app_assoc.
Qed.

Lemma fifo_inv_reachable n s : reachable n s -> fifo_inv s.
Proof.
  induction 1 as [|s a s' Hr IH Ha] using reachable_ind'; [done|].
  eapply fifo_inv_step; eauto using wait_inv_reachable.
Qed.

(** ** Every worker finishes what it takes, one task at a time *)

Lemma held_spawn (l : list wpc) i :
  from_option held [] ((l ++ [WLock]) !! i) = from_option held [] (l !! i).
Proof.
  destruct (decide (i < length l)).
  - by rewrite lookup_app_l.
  - rewrite lookup_app_r, (lookup_ge_None_2 l) by lia.
    by destruct (i - length l) as [|[|]].
Qed.

Lemma held_wake_all (l : list wpc) i :
  from_option held [] (wake_all l !! i) = from_option held [] (l !! i).
Proof.
  unfold wake_all. rewrite list_lookup_fmap.
  destruct (l !! i) as [[]|]; done.
Qed.

Lemma held_with_pc (l : list wpc) i j p q :
  l !! i = Some q ->
  from_option held [] (<[i := p]> l !! j)
  = if decide (i = j) then held p else from_option held [] (l !! j).
Proof.
  intros H. destruct (decide (i = j)) as [->|].
  - by erewrite lookup_with_pc_eq.
  - by rewrite list_lookup_insert_ne.
Qed.

Lemma held_inv_step s a s' :
  wait_inv s -> held_inv s -> exec a s = Some s' -> held_inv s'.
Proof.
  intros Hw Hh H. exec_inv H; unfold held_inv in *; simpl in *.
  all: intros j; specialize (Hh j); trace_simpl.
  all: rewrite ?held_spawn, ?held_wake_all; try done.
  all: erewrite held_with_pc by done.
  all: repeat case_decide; simplify_eq; simpl; rewrite ?app_nil_r; try done.
  all: try match goal with E : workers _ !! _ = Some _ |- _ => rewrite E in Hh end.
  all: simpl in Hh; rewrite ?app_nil_r in Hh; rewrite Hh; try done.
  all: try by rewrite <- ?app_assoc.
  use_all Hw. unfold wait_post in *. by destruct (runqueue s).
Qed.

Lemma held_inv_reachable n s : reachable n s -> held_inv s.
Proof.
  induction 1 as [|s a s' Hr IH Ha] using reachable_ind'; [done|].
  eapply held_inv_step; eauto using wait_inv_reachable.
Qed.

(** ** Events name existing workers *)

Lemma events_inv_step s a s' : events_inv s -> exec a s = Some s' -> events_inv s'.
Proof.
  intros He H. exec_inv H; unfold events_inv in *; simpl in *.
  all: rewrite ?length_insert; unfold wake_all; rewrite ?length_map; try done.
  all: rewrite ?Forall_app, ?Forall_singleton; unfold event_ok at 2; simpl.
  all: try (split; [done|]); try done.
  all: try by eapply lookup_lt_Some.
  rewrite length_app. split; [|done].
  eapply Forall_impl; [done|]. intros e. unfold event_ok.
  destruct (event_worker e); simpl; lia.
Qed.

Lemma events_inv_reachable n s : reachable n s -> events_inv s.
Proof.
  induction 1 as [|s a s' Hr IH Ha] using reachable_ind'; [by constructor|].
  by eapply events_inv_step.
Qed.

(** ** The stop flag *)

Lemma stop_inv_step s a s' : stop_inv s -> exec a s = Some s' -> stop_inv s'.
Proof.
  intros (H1 & H2 & H3 & H4 & H5) H. exec_inv H; unfold stop_inv; simpl in *.
  all: trace_simpl.
  all: split_and!; try done; try lia.
  all: try (intros j q Hj Hq; split_lookup Hj; simpl in *; use_all H3).
  all: try (destruct (shouldStop s); simpl in *; done).
  all: finish.
Qed.

Lemma stop_inv_reachable n s : reachable n s -> stop_inv s.
Proof.
  induction 1 as [|s a s' Hr IH Ha] using reachable_ind'.
  - by split_and!.
  - by eapply stop_inv_step.
Qed.

(** ** Joining *)

Lemma join_inv_step s a s' : join_inv s -> exec a s = Some s' -> join_inv s'.
Proof.
  intros Hj H. exec_inv H; unfold join_inv in *; simpl in *.
  all: rew_fields; simpl in *.
  all: intros i' j Hc Hlt.
  all: try (pose proof (Hj _ j Hc Hlt) as Hold).
  all: simplify_eq; try lia; try done.
  all: try (apply lookup_with_pc_ne; [by intros ->; simplify_eq | done]).
  all: destruct (decide (j = i)) as [->|];
       [by eapply lookup_with_pc_eq | apply lookup_with_pc_ne; [done|]].
  all: apply (Hj i); [done|lia].
Qed.

Lemma join_inv_reachable n s : reachable n s -> join_inv s.
Proof.
  induction 1 as [|s a s' Hr IH Ha] using reachable_ind'; [done|].
  by eapply join_inv_step.
Qed.

(** ** Draining *)

Lemma drain_inv_step s a s' :
  stop_inv s -> drain_inv s -> exec a s = Some s' -> drain_inv s'.
Proof.
  intros (S1 & S2 & S3 & S4 & S5) Hd H. exec_inv H; unfold drain_inv in *; simpl in *.
  all: rew_fields; simpl in *; try done.
  all: trace_simpl.
  all: intros Hc Hst j q Hj Hq; split_lookup Hj; simpl in *; try done.
  all: try (eapply Hd; [done|done|done|first [done | by destruct x]]).
  - assert (shouldStop s = false) as Hs by (apply S2; lia).
    rewrite (S3 _ _ Hj Hq) in Hs. done.
  - assert (shouldStop s = false) as Hs by (apply S2; lia).
    rewrite (S3 _ _ Hj Hq) in Hs. done.
  - match goal with E : _ && _ = true |- _ => apply andb_prop in E as [_ E] end.
    by destruct (runqueue s).
  - by specialize (Hd Hc Hst _ _ Hj Hq).
Qed.

Lemma drain_inv_reachable n s : reachable n s -> drain_inv s.
Proof.
  induction 1 as [|s a s' Hr IH Ha] using reachable_ind'; [done|].
  eapply drain_inv_step; eauto using stop_inv_reachable.
Qed.

(** ** No missed wake-up for a task *)






(** ** Faults that cannot happen *)

Lemma fault_inv_step s a s' :
  wait_inv s -> fault_inv s -> exec a s = Some s' -> fault_inv s'.
Proof.
  intros Hw Hf H. exec_inv H; unfold fault_inv in *; simpl in *; try done.
  all: try (intros j; specialize (Hf j); congruence).
  use_all Hw. unfold wait_post in *. rew_fields. done.
Qed.

Lemma fault_inv_reachable n s : reachable n s -> fault_inv s.
Proof.
  induction 1 as [|s a s' Hr IH Ha] using reachable_ind'; [done|].
  eapply fault_inv_step; eauto using wait_inv_reachable.
Qed.

Lemma guard_inv_step s a s' : guard_inv s -> exec a s = Some s' -> guard_inv s'.
Proof.
  intros [Hg Ht] H. exec_inv H; unfold guard_inv in *; simpl in *.
  all: split; [intros j Hj; split_lookup Hj; simplify_eq; try by eapply Hg|].
  all: rewrite ?Forall_app, ?Forall_singleton; try done.
  all: try (destruct x; simpl in *; simplify_eq; by eapply Hg).
  exfalso. by eapply Hg.
Qed.

Lemma guard_inv_reachable n s : reachable n s -> guard_inv s.
Proof.
  induction 1 as [|s a s' Hr IH Ha] using reachable_ind'.
  - split; [intros i; by destruct i | constructor].
  - by eapply guard_inv_step.
Qed.

(** * Running a schedule symbolically *)

Lemma run_step a l s s' : exec a s = Some s' -> run (a :: l) s = run l s'.
Proof. intros H. simpl. by rewrite H. Qed.

Ltac unfold_step :=
  unfold exec, call, client_step, dtor_step, waitForAll_step, notify_one,
         work_step, wait_pred, with_pc, with_lock, with_queue, with_workers,
         with_client, with_fault, with_stop, emit; simpl.

(** One action of a schedule, for a state whose worker [i] is known by [Hi]. *)
Ltac run1 Hi :=
  erewrite run_step;
  [ | unfold_step;
      rewrite ?list_insert_insert_eq;
      rewrite ?Hi, ?list_lookup_insert_eq by (rewrite ?length_insert; by eapply lookup_lt_Some);
      simpl; rewrite ?orb_true_r, ?andb_false_r; simpl; reflexivity ];
  cbn [shouldStop workers runqueue queueLock client fault trace];
  rewrite ?list_insert_insert_eq.

(** * The claims *)

Lemma live_with_pc (l : list wpc) i p q :
  l !! i = Some q -> finished p = finished q -> live (<[i := p]> l) = live l.
Proof.
  unfold live. revert i. induction l as [|x l IH]; intros [|i] Hi Hf; simplify_eq/=.
  - rewrite Hf. by destruct (finished q).
  - specialize (IH _ Hi Hf). destruct (finished x); simpl; congruence.
Qed.

(** C1. A task that ends by throwing is caught inside the worker: the
    step that ends the call reports the failure, takes the worker back to
    the head of its loop, leaves every other thread, the queue, the flag,
    the mutex and the fault status as they were, and keeps the number of
    live workers; and the same worker, scheduled on, takes the next task
    from the queue and starts it. *)
Theorem task_failure_is_isolated (s : state) (i : nat) (c : callable) :
  fault s = None ->
  workers s !! i = Some (WRunning c) ->
  exists s',
    exec (Work i) s = Some s'
    /\ trace s' = trace s ++ [completion i c]
    /\ workers s' = <[i := WLock]> (workers s)
    /\ workers s' !! i = Some WLock
    /\ length (workers s') = length (workers s)
    /\ live (workers s') = live (workers s)
    /\ fault s' = None
    /\ runqueue s' = runqueue s /\ shouldStop s' = shouldStop s
    /\ queueLock s' = queueLock s /\ client s' = client s
    /\ forall c' q, queueLock s = None -> runqueue s = Some c' :: q ->
         exists s'', run (repeat (Work i) 8) s' = Some s''
           /\ workers s'' = <[i := WRunning c']> (workers s)
           /\ runqueue s'' = q
           /\ fault s'' = None
           /\ trace s'' = trace s ++ [completion i c; EvDequeue i (Some c'); EvCall i c'].
Proof.
  intros Hf Hi. destruct s as [stop ws rq lk cl f tr]; simpl in Hf, Hi; subst.
  eexists. split.
  { unfold_step. rewrite Hi. unfold completion.
    instantiate (1 := State stop (<[i := WLock]> ws) rq lk cl None (tr ++ [completion i c])).
    unfold completion. by destruct (behaviour c). }
  cbn [shouldStop workers runqueue queueLock client fault trace]. split_and!; try done.
  - by eapply lookup_with_pc_eq.
  - by rewrite length_insert.
  - by eapply live_with_pc.
  - intros c' q -> ->. cbn [repeat].
    assert (<[i := WLock]> ws !! i = Some WLock) as Hi' by by eapply lookup_with_pc_eq.
    do 8 run1 Hi'. eexists. split; [done|]. simpl.
    split_and!; try done. by rewrite <- !app_assoc.
Qed.

Lemma task_failure_is_isolated_witness :
  exists s', exec (Work 0) Demo.s_running = Some s'
    /\ trace s' = trace Demo.s_running ++ [EvCerr 0 (Some Demo.c1) (Some "boom"%string)]
    /\ workers s' = [WLock] /\ live (workers s') = 1
    /\ exists s'', run (repeat (Work 0) 8) s' = Some s''
         /\ workers s'' = [WRunning Demo.c0] /\ runqueue s'' = [].
Proof.
  destruct (task_failure_is_isolated Demo.s_running 0 Demo.c1)
    as (s' & He & Ht & Hw & _ & _ & Hl & _ & _ & _ & _ & _ & Hnext);
    [reflexivity | reflexivity |].
  destruct (Hnext Demo.c0 []) as (s'' & Hr & Hw' & Hq & _); [reflexivity | reflexivity |].
  exists s'. split_and!; [exact He | exact Ht | exact Hw | exact Hl |].
  exists s''. split_and!; [exact Hr | exact Hw' | exact Hq].
Defined.



(** C9. In every reachable state, spurious wake-ups included, a worker
    that stands on the emptiness check of line 53 or on the front/pop
    pair of lines 55-56 finds the queue non-empty, the fault of popping an
    empty queue never occurs, and a worker that was woken for whatever
    reason goes back to evaluating the predicate under the mutex. *)
Theorem pop_never_underflows (n : nat) (s : state) :
  reachable n s ->
  (forall i, fault s <> Some (PopEmpty i))
  /\ (forall i, workers s !! i = Some WPop -> runqueue s <> [])
  /\ (forall i, workers s !! i = Some WEmptyCheck -> runqueue s <> [])
  /\ (forall i, workers s !! i = Some WStopCheck -> shouldStop s = true \/ runqueue s <> [])
  /\ (forall i s', workers s !! i = Some WSleep -> exec (Spurious i) s = Some s' ->
        workers s' !! i = Some WWake)
  /\ (forall i s', workers s !! i = Some WWake -> exec (Work i) s = Some s' ->
        workers s' !! i = Some WPred /\ queueLock s' = Some (Worker i)).
Proof.
  intros Hr. split_and!.
  - by eapply fault_inv_reachable.
  - intros i Hi. by apply (wait_inv_reachable _ _ Hr _ _ Hi).
  - intros i Hi. by apply (wait_inv_reachable _ _ Hr _ _ Hi).
  - intros i Hi. by apply (wait_inv_reachable _ _ Hr _ _ Hi).
  - intros i s' Hi H. unfold exec in H. rewrite Hi in H.
    destruct (fault s); simplify_eq. simpl. by eapply lookup_with_pc_eq.
  - intros i s' Hi H. unfold exec in H. rewrite Hi in H.
    destruct (fault s); simplify_eq. simpl in H.
    destruct (queueLock s); simplify_eq. simpl. split; [|done].
    by eapply lookup_with_pc_eq.
Qed.

Lemma pop_never_underflows_witness :
  reachable 1 Demo.s_pop /\ workers Demo.s_pop !! 0 = Some WPop
  /\ runqueue Demo.s_pop <> [].
Proof.
  assert (reachable 1 Demo.s_pop) as Hr by (exists Demo.sched_pop; reflexivity).
  split_and!; [exact Hr | reflexivity |].
  destruct (pop_never_underflows 1 Demo.s_pop Hr) as (_ & H & _).
  apply (H 0). reflexivity.
Defined.

(** C10. An empty function object can be handed to [submitTask] like any
    other task; the worker that takes it fails the test of line 60,
    invokes nothing, reports nothing and is back at the head of its loop;
    and in no reachable state is a worker calling an empty function
    object, nor has [std::bad_function_call] ever been reported. *)
Theorem empty_task_is_skipped (n : nat) (s : state) :
  reachable n s ->
  (client s = CIdle -> fault s = None ->
     exec (Call (SubmitTask None)) s = Some (with_client (CSubmitLock None) s))
  /\ (forall i, fault s = None -> workers s !! i = Some (WGuard None) ->
        exec (Work i) s = Some (emit (EvSkip i None) (with_pc i WLock s)))
  /\ (forall i, workers s !! i <> Some (WInvoke None))
  /\ (forall i what, ~ In (EvCerr i None what) (trace s)).
Proof.
  intros Hr. destruct (guard_inv_reachable _ _ Hr) as [Hg Ht]. split_and!.
  - intros Hc Hf. unfold exec, call. by rewrite Hf, Hc.
  - intros i Hf Hi. unfold exec. by rewrite Hf, Hi.
  - done.
  - intros i what Hin. rewrite Forall_forall in Ht.
    apply list_elem_of_In in Hin. by apply Ht in Hin.
Qed.

Lemma empty_task_is_skipped_witness :
  reachable 1 Demo.s_guard_empty
  /\ exec (Work 0) Demo.s_guard_empty
     = Some (emit (EvSkip 0 None) (with_pc 0 WLock Demo.s_guard_empty)).
Proof.
  assert (reachable 1 Demo.s_guard_empty) as Hr
    by (exists Demo.sched_guard_empty; reflexivity).
  split; [exact Hr|].
  destruct (empty_task_is_skipped 1 Demo.s_guard_empty Hr) as (_ & H & _).
  apply (H 0); reflexivity.
Defined.

(** ** Construction *)

Lemma ctor_loop n k : forall i ws tr,
  i + k = n ->
  run (repeat (Client 0) (S k)) (State false ws [] None (CCtor n i) None tr)
  = Some (State false (ws ++ repeat WLock k) [] None CIdle None (tr ++ map EvSpawn (seq i k))).
Proof.
  induction k as [|k IH]; intros i ws tr Hk.
  - cbn [repeat]. erewrite run_step.
    2:{ unfold_step. replace (i <? n) with false by (symmetry; apply Nat.ltb_ge; lia). done. }
    simpl. by rewrite !app_nil_r.
  - change (repeat (Client 0) (S (S k))) with (Client 0 :: repeat (Client 0) (S k)).
    erewrite run_step.
    2:{ unfold_step. replace (i <? n) with true by (symmetry; apply Nat.ltb_lt; lia). done. }
    rewrite IH by lia. simpl. by rewrite <- !app_assoc.
Qed.

Ltac run0 :=
  erewrite run_step; [ | unfold_step; reflexivity ];
  cbn [shouldStop workers runqueue queueLock client fault trace].

Lemma lock_free_when_idle n s :
  reachable n s -> workers s = [] -> cholds (client s) = false -> queueLock s = None.
Proof.
  intros Hr Hw Hc. pose proof (owner_inv_reachable _ _ Hr) as Ho.
  unfold owner_inv in Ho. destruct (queueLock s) as [[|i]|]; [congruence| |done].
  destruct Ho as (p & Hp & _). rewrite Hw in Hp. by destruct i.
Qed.

(** C7. The constructor, run without interruption, returns after
    [concurrency] iterations with exactly that many threads, each at the
    first line of [work]; no member function can be entered before it has
    returned; however the threads interleave with it, the vector has
    exactly [concurrency] handles once it has returned, and as long as no
    shutdown was requested every one of them is inside the loop.  A pool
    built with 0 has no thread: it takes every submitted task into the
    queue, and no task is ever taken out or started. *)
Theorem constructor_spawns_workers (n : nat) (s : state) :
  reachable n s ->
  run (repeat (Client 0) (S n)) (init n)
    = Some (State false (repeat WLock n) [] None CIdle None (map EvSpawn (seq 0 n)))
  /\ (in_ctor (client s) = true -> forall o, exec (Call o) s = None)
  /\ (in_ctor (client s) = false -> length (workers s) = n)
  /\ (shouldStop s = false -> forall i p, workers s !! i = Some p -> finished p = false)
  /\ (n = 0 ->
        workers s = []
        /\ (forall e, In e (trace s) -> event_worker e = None)
        /\ dequeued (trace s) = []
        /\ forall t, client s = CIdle -> fault s = None ->
             exists s', run [Call (SubmitTask t); Client 0; Client 0; Client 0; Client 0] s = Some s'
               /\ runqueue s' = runqueue s ++ [t] /\ client s' = CIdle /\ fault s' = None
               /\ workers s' = []).
Proof.
  intros Hr. split_and!.
  - unfold init. rewrite (ctor_loop n n 0 [] []) by lia. done.
  - intros Hc o. unfold exec, call. destruct (fault s); [done|].
    by destruct (client s).
  - intros Hc. pose proof (size_inv_reachable _ _ Hr) as Hs. unfold size_inv in Hs.
    by destruct (client s).
  - intros Hs i p Hi. destruct (stop_inv_reachable _ _ Hr) as (_ & _ & H3 & _ & _).
    destruct (finished p) eqn:Hp; [|done]. rewrite (H3 _ _ Hi Hp) in Hs. done.
  - intros ->. pose proof (workers_bound _ _ Hr) as Hb.
    assert (workers s = []) as Hw by (destruct (workers s); [done | simpl in Hb; lia]).
    pose proof (events_inv_reachable _ _ Hr) as He. unfold events_inv in He.
    rewrite Hw in He. simpl in He. rewrite Forall_forall in He.
    assert (forall e, In e (trace s) -> event_worker e = None) as Hnone.
    { intros e Hin. apply list_elem_of_In, He in Hin. unfold event_ok in Hin.
      destruct (event_worker e); [simpl in Hin; lia | done]. }
    split_and!; [done | done | |].
    + unfold dequeued. clear -Hnone. induction (trace s) as [|e tr IH]; [done|].
      pose proof (Hnone e (or_introl eq_refl)) as He.
      specialize (IH (fun e' H => Hnone e' (or_intror H))).
      by destruct e.
    + intros t Hc Hf.
      assert (queueLock s = None) as Hl
        by (eapply lock_free_when_idle; [done | done | by rewrite Hc]).
      destruct s as [stop ws rq lk cl f tr]; simpl in Hw, Hc, Hf, Hl; subst.
      do 5 run0. eexists. split; [done|]. done.
Qed.

Lemma constructor_spawns_workers_witness :
  reachable 0 (Demo.after 0 (Demo.construct 0))
  /\ exists s', run (Demo.submit 0 (Some Demo.c0)) (Demo.after 0 (Demo.construct 0)) = Some s'
       /\ runqueue s' = [Some Demo.c0] /\ workers s' = [].
Proof.
  assert (reachable 0 (Demo.after 0 (Demo.construct 0))) as Hr
    by (exists (Demo.construct 0); reflexivity).
  split; [exact Hr|].
  destruct (constructor_spawns_workers 0 _ Hr) as (_ & _ & _ & _ & H).
  destruct (H eq_refl) as (_ & _ & _ & Hsub).
  destruct (Hsub (Some Demo.c0)) as (s' & Hrun & Hq & _ & _ & Hw); [reflexivity | reflexivity |].
  exists s'. split_and!; [exact Hrun | exact Hq | exact Hw].
Defined.

(** ** Submission *)




(** ** The pool can always drain *)
























(** ** Submission, from call to return *)



(** ** The two shutdown bodies *)


Lemma rejoin_inv_step s a s' :
  stop_inv s -> join_inv s -> rejoin_inv s -> exec a s = Some s' -> rejoin_inv s'.
Proof.
  intros (S1 & _ & _ & _ & S5) Hj Hk H. exec_inv H; unfold rejoin_inv in *; simpl in *.
  all: rew_fields; simpl in *; trace_simpl.
  all: intros Hst.
  all: try (destruct Hk as [K1 K2];
            [first [ done | left; lia | right; split; [lia|done] ] | ]).
  all: rew_fields; simpl in *.
  all: split; intros x Hx; split_lookup Hx; try by eauto.
  all: try (use_all K1; done).
  all: try (match goal with Hl : workers _ !! _ = Some _ |- _ => apply K1 in Hl end; by subst).
  - specialize (S1 (S5 eq_refl)). lia.
  - rewrite (K2 i eq_refl) in *. by apply K1 in H2.
  - unfold join_inv in Hj. rewrite H0 in Hj.
    destruct i as [|i]; [congruence|].
    specialize (Hj (S i) 0 eq_refl ltac:(lia)). congruence.
  - rewrite (K2 i eq_refl) in *. by apply K1 in H2.
  - unfold join_inv in Hj. rewrite H0 in Hj.
    destruct i as [|i]; [congruence|].
    specialize (Hj (S i) 0 eq_refl ltac:(lia)). congruence.
Qed.

Lemma rejoin_inv_reachable n s : reachable n s -> rejoin_inv s.
Proof.
  induction 1 as [|s a s' Hr IH Ha] using reachable_ind'.
  - intros [H|[H _]]; unfold stores in H; simpl in H; lia.
  - eapply rejoin_inv_step; eauto using stop_inv_reachable, join_inv_reachable.
Qed.

Lemma shutdown_done_drained n s i :
  0 < n -> reachable n s -> joining (client s) = Some i -> workers s !! i = None ->
  stores (trace s) = 1 /\ runqueue s = []
  /\ (forall j p, workers s !! j = Some p -> p = WJoined)
  /\ length (workers s) = n
  /\ enqueued (trace s) = dequeued (trace s)
  /\ (forall j, dequeued_by j (trace s) = finished_by j (trace s)).
Proof.
  intros Hn Hr Hc Hi.
  assert (stopping (client s) = true) as Hstop by (by destruct (client s) as [| | | | | |[]|[]|]).
  assert (length (workers s) = n) as Hlen.
  { pose proof (size_inv_reachable _ _ Hr) as Hs. unfold size_inv in Hs.
    by destruct (client s). }
  assert (forall j p, workers s !! j = Some p -> p = WJoined) as Hall.
  { intros j p Hj. apply lookup_ge_None in Hi. pose proof (lookup_lt_Some _ _ _ Hj).
    rewrite (join_inv_reachable _ _ Hr i j Hc) in Hj by lia. congruence. }
  destruct (lookup_lt_is_Some_2 (workers s) 0) as [p0 Hp0]; [lia|].
  pose proof (Hall _ _ Hp0) as ->.
  destruct (stop_inv_reachable _ _ Hr) as (S1 & S2 & _ & S4 & _).
  assert (stores (trace s) = 1) as Hst.
  { destruct (decide (2 <= stores (trace s))) as [H2|H2].
    - destruct (rejoin_inv_reachable _ _ Hr (or_introl H2)) as [_ K2].
      rewrite (K2 _ Hc) in Hi. congruence.
    - destruct (stores (trace s)) as [|[|]] eqn:E; [|done|lia].
      rewrite (S4 Hstop) in S2. by specialize (S2 eq_refl). }
  assert (runqueue s = []) as Hq by (by eapply (drain_inv_reachable _ _ Hr Hstop Hst 0)).
  split_and!; try done.
  - rewrite (fifo_inv_reachable _ _ Hr), Hq. by rewrite app_nil_r.
  - intros j. rewrite (held_inv_reachable _ _ Hr j).
    destruct (workers s !! j) as [p|] eqn:Hj; simpl; [|by rewrite app_nil_r].
    rewrite (Hall _ _ Hj). simpl. by rewrite app_nil_r.
Qed.




(** The drain property is stated at the return of the shutdown because a
    shutdown need not return.  The flag is stored without the mutex: a
    worker that has evaluated the predicate to false and not yet blocked
    misses both the store and the [notify_all], and then sleeps while the
    client waits in [join].  Only a spurious wake-up gets the pool out of
    this state. *)
Lemma shutdown_can_miss_a_worker :
  run (Demo.construct 1 ++ [Work 0; Work 0] ++ [Call Destroy; Client 0; Client 0] ++ [Work 0])
      (init 1)
  = Some (State true [WSleep] [] None (CDtor (SJoin 0)) None
            [EvSpawn 0; EvStoreStop; EvNotifyAll])
  /\ (forall k, exec (Client k) (State true [WSleep] [] None (CDtor (SJoin 0)) None
                       [EvSpawn 0; EvStoreStop; EvNotifyAll]) = None)
  /\ (forall i, exec (Work i) (State true [WSleep] [] None (CDtor (SJoin 0)) None
                       [EvSpawn 0; EvStoreStop; EvNotifyAll]) = None)
  /\ (forall o, exec (Call o) (State true [WSleep] [] None (CDtor (SJoin 0)) None
                       [EvSpawn 0; EvStoreStop; EvNotifyAll]) = None).
Proof.
  split_and!; [vm_compute; reflexivity | done | | done].
  intros [|[|i]]; reflexivity.
Qed.

(** ** The stop flag over a whole schedule *)

Lemma store_count_step s a s' :
  exec a s = Some s' ->
  stores (trace s') + (if at_store (client s') then 1 else 0)
  = stores (trace s) + (if at_store (client s) then 1 else 0) + shutdown_calls [a].
Proof.
  intros H. exec_inv H; simpl in *.
  all: rew_fields; simpl in *; trace_simpl; unfold shutdown_calls; simpl; try lia.
  all: destruct (at_store (client s)); lia.
Qed.

Lemma store_count n sched s :
  run sched (init n) = Some s ->
  stores (trace s) + (if at_store (client s) then 1 else 0) = shutdown_calls sched.
Proof.
  revert s. induction sched as [|a l IH] using rev_ind; intros s Hl.
  - simpl in Hl. by simplify_eq.
  - rewrite run_app in Hl. destruct (run l (init n)) as [s0|] eqn:E; [|done].
    simpl in Hl. destruct (exec a s0) as [s1|] eqn:Ea; [|done]. simplify_eq.
    rewrite (store_count_step _ _ _ Ea), (IH _ eq_refl).
    unfold shutdown_calls. by rewrite List.filter_app, length_app.
Qed.

Lemma stop_monotone_step s a s' :
  exec a s = Some s' -> shouldStop s = true -> shouldStop s' = true.
Proof. intros H Hs. exec_inv H; simpl in *; done. Qed.

Lemma stop_change_step s a s' :
  exec a s = Some s' -> shouldStop s' <> shouldStop s ->
  shouldStop s = false /\ shouldStop s' = true /\ at_store (client s) = true
  /\ exists k, a = Client k.
Proof.
  intros H Hs. exec_inv H; simpl in *; try done.
  all: rew_fields; simpl; destruct (shouldStop s); try done; eauto.
Qed.

Lemma workers_grow_step s a s' :
  exec a s = Some s' -> length (workers s) <= length (workers s').
Proof.
  intros H. exec_inv H; simpl.
  all: unfold wake_all; rewrite ?length_insert, ?length_app, ?length_map; lia.
Qed.

Lemma finished_forever_step s a s' i p q :
  exec a s = Some s' -> workers s !! i = Some p -> finished p = true ->
  workers s' !! i = Some q -> finished q = true.
Proof.
  intros H Hi Hp Hq. exec_inv H; simpl in *.
  all: split_lookup Hq; simplify_eq; try done.
  all: try (by destruct p).
  apply lookup_lt_Some in Hi. lia.
Qed.

Lemma finished_forever_run l : forall s s' i p,
  run l s = Some s' -> workers s !! i = Some p -> finished p = true ->
  exists q, workers s' !! i = Some q /\ finished q = true.
Proof.
  induction l as [|a l IH]; intros s s' i p Hl Hi Hp; simpl in Hl.
  - simplify_eq. by exists p.
  - destruct (exec a s) as [s1|] eqn:Ea; [|done].
    destruct (lookup_lt_is_Some_2 (workers s1) i) as [q Hq].
    { pose proof (workers_grow_step _ _ _ Ea). apply lookup_lt_Some in Hi. lia. }
    eapply IH; [done | done |]. by eapply finished_forever_step.
Qed.

(** C5 (amended). The flag is false when the pool is built.  Every write
    stores true: no step takes it from true back to false, and the only
    step that changes it is the first line of a shutdown body, from false
    to true.  Each call of a shutdown entry point writes it at most once,
    so it has been written at most as often as shutdown was called, and it
    is true exactly when it has been written.  A worker that finds it true
    with the queue empty on line 49 returns from [work], and a worker that
    has returned never executes another line, whatever happens next. *)
Theorem stop_flag_only_rises (n : nat) (sched : list action) (s : state) :
  run sched (init n) = Some s ->
  shouldStop (init n) = false
  /\ stores (trace s) <= shutdown_calls sched
  /\ (shouldStop s = true <-> 0 < stores (trace s))
  /\ (forall a s', exec a s = Some s' -> shouldStop s = true -> shouldStop s' = true)
  /\ (forall a s', exec a s = Some s' -> shouldStop s' <> shouldStop s ->
        shouldStop s = false /\ shouldStop s' = true /\ at_store (client s) = true
        /\ exists k, a = Client k)
  /\ (forall i, fault s = None -> workers s !! i = Some WStopCheck ->
        shouldStop s = true -> runqueue s = [] ->
        exists s', exec (Work i) s = Some s' /\ workers s' !! i = Some WReturned)
  /\ (forall i p l s', workers s !! i = Some p -> finished p = true ->
        run l s = Some s' ->
        (exists q, workers s' !! i = Some q /\ finished q = true)
        /\ exec (Work i) s' = None /\ exec (Spurious i) s' = None).
Proof.
  intros Hrun. assert (reachable n s) as Hr by by exists sched.
  destruct (stop_inv_reachable _ _ Hr) as (S1 & S2 & _).
  split_and!.
  - done.
  - pose proof (store_count _ _ _ Hrun). lia.
  - split; intros H.
    + destruct (stores (trace s)); [|lia]. rewrite (S2 eq_refl) in H. done.
    + destruct (shouldStop s); [done|]. specialize (S1 eq_refl). lia.
  - intros a s'. apply stop_monotone_step.
  - intros a s'. apply stop_change_step.
  - intros i Hf Hi Hs Hq. unfold exec. rewrite Hf, Hi. simpl. rewrite Hs, Hq. simpl.
    eexists. split; [done|]. simpl. by eapply lookup_with_pc_eq.
  - intros i p l s' Hi Hp Hl.
    destruct (finished_forever_run _ _ _ _ _ Hl Hi Hp) as (q & Hq & Hfq).
    split; [by exists q|]. unfold exec. rewrite Hq.
    destruct (fault s'); [done|]. by destruct q.
Qed.

Lemma stop_flag_only_rises_witness :
  stores (trace Demo.s_destroyed) <= 1
  /\ (shouldStop Demo.s_destroyed = true <-> 0 < stores (trace Demo.s_destroyed))
  /\ exec (Work 0) Demo.s_destroyed = None.
Proof.
  destruct (stop_flag_only_rises 1 (Demo.sched_joined ++ [Client 0]) Demo.s_destroyed)
    as (_ & H1 & H2 & _ & _ & _ & H3); [vm_compute; reflexivity|].
  split_and!; [exact H1 | exact H2 |].
  destruct (H3 0 WJoined [] Demo.s_destroyed) as (_ & H & _);
    [reflexivity | reflexivity | reflexivity | exact H].
Defined.

(** C5, as stated, fails: the flag is written twice in one lifetime of a
    pool when [waitForAll] is followed by the destructor.  With no worker
    both calls return; with one worker the second store is followed by
    the failing [join]. *)
Lemma stop_flag_written_twice :
  run (Demo.construct 0 ++ Demo.shutdown WaitForAll 0 ++ Demo.shutdown Destroy 0) (init 0)
  = Some (State true [] [] None CDestroyed None
            [EvStoreStop; EvNotifyAll; EvStoreStop; EvNotifyAll])
  /\ stores [EvStoreStop; EvNotifyAll; EvStoreStop; EvNotifyAll] = 2
  /\ run (Demo.construct 1 ++ repeat (Work 0) 3 ++ [Call WaitForAll; Client 0; Client 0]
          ++ repeat (Work 0) 3 ++ [Client 0; Client 0] ++ Demo.shutdown Destroy 0) (init 1)
     = Some (State true [WJoined] [] None (CDtor (SJoin 0)) (Some (JoinTerminate 0))
               [EvSpawn 0; EvStoreStop; EvNotifyAll; EvExit 0; EvJoin 0;
                EvStoreStop; EvNotifyAll]).
Proof. split_and!; vm_compute; reflexivity. Qed.

(** ** Submission after shutdown *)

(** Entering [submitTask] is possible in every idle state, whatever the
    value of the flag. *)
Lemma submit_ignores_flag (s : state) (t : task) :
  client s = CIdle -> fault s = None ->
  exec (Call (SubmitTask t)) s = Some (with_client (CSubmitLock t) s).
Proof. intros Hc Hf. unfold exec, call. by rewrite Hf, Hc. Qed.

(** C2. [submitTask] never looks at the flag: on a pool whose only
    worker has been joined by [waitForAll] a task is accepted, appended
    and signalled like any other, nothing is reported to the caller, and
    the task stays in the queue of a pool in which no worker can take a
    step any more. *)
Theorem submit_after_shutdown_is_enqueued :
  run (Demo.construct 1 ++ repeat (Work 0) 3 ++ [Call WaitForAll; Client 0; Client 0]
       ++ repeat (Work 0) 3 ++ [Client 0; Client 0]) (init 1)
  = Some (State true [WJoined] [] None CIdle None
            [EvSpawn 0; EvStoreStop; EvNotifyAll; EvExit 0; EvJoin 0])
  /\ run (Demo.submit 0 (Some Demo.c0))
         (State true [WJoined] [] None CIdle None
            [EvSpawn 0; EvStoreStop; EvNotifyAll; EvExit 0; EvJoin 0])
     = Some (State true [WJoined] [Some Demo.c0] None CIdle None
               [EvSpawn 0; EvStoreStop; EvNotifyAll; EvExit 0; EvJoin 0;
                EvEnqueue (Some Demo.c0); EvNotifyOne None])
  /\ (forall i, exec (Work i) (State true [WJoined] [Some Demo.c0] None CIdle None
               [EvSpawn 0; EvStoreStop; EvNotifyAll; EvExit 0; EvJoin 0;
                EvEnqueue (Some Demo.c0); EvNotifyOne None]) = None)
  /\ (forall i, exec (Spurious i) (State true [WJoined] [Some Demo.c0] None CIdle None
               [EvSpawn 0; EvStoreStop; EvNotifyAll; EvExit 0; EvJoin 0;
                EvEnqueue (Some Demo.c0); EvNotifyOne None]) = None).
Proof.
  split_and!.
  - vm_compute; reflexivity.
  - vm_compute; reflexivity.
  - intros [|[|i]]; reflexivity.
  - intros [|[|i]]; reflexivity.
Qed.

(** ** Order of execution *)

Lemma finish_inv_step s a s' :
  guard_inv s -> finish_inv s -> exec a s = Some s' -> finish_inv s'.
Proof.
  intros [Hg _] Hf H. exec_inv H; unfold finish_inv in *; simpl in *; try done.
  all: rewrite Forall_app, Forall_singleton; split; [done|]; simpl; try done.
  all: unfold completion; rew_fields; simpl; try done.
  - by destruct t.
  - by eapply Hg.
  - match goal with E : behaviour _ = _ |- _ => by rewrite E end.
  - match goal with E : behaviour _ = _ |- _ => by rewrite E end.
  - match goal with E : behaviour _ = _ |- _ => by rewrite E end.
Qed.

Lemma finish_inv_reachable n s : reachable n s -> finish_inv s.
Proof.
  induction 1 as [|s a s' Hr IH Ha] using reachable_ind'; [by constructor|].
  eapply finish_inv_step; eauto using guard_inv_reachable.
Qed.

(** Every prefix of a reachable trace is the trace of the reachable state
    in which its last event was emitted. *)
Lemma trace_prefix n s : reachable n s -> forall pre e post,
  trace s = pre ++ e :: post ->
  exists s0 a s1, reachable n s0 /\ exec a s0 = Some s1
                  /\ trace s0 = pre /\ trace s1 = pre ++ [e].
Proof.
  induction 1 as [|s a s' Hr IH Ha] using reachable_ind'; intros pre e post Ht.
  - by destruct pre.
  - destruct (exec_trace _ _ _ Ha) as [E|[e' E]]; rewrite E in Ht; [by eapply IH|].
    destruct post as [|x post _] using rev_ind.
    + apply app_inj_tail in Ht as [Hp He]. subst e'.
      exists s, a, s'. by rewrite E, Hp.
    + rewrite app_comm_cons, app_assoc in Ht. apply app_inj_tail in Ht as [Ht _].
      by eapply IH.
Qed.

Lemma call_emitted s a s' i c :
  exec a s = Some s' -> trace s' = trace s ++ [EvCall i c] ->
  workers s !! i = Some (WInvoke (Some c)).
Proof.
  intros H Ht. exec_inv H; simpl in Ht.
  all: try (apply app_inj_tail in Ht as [_ Ht]; by simplify_eq).
  all: exfalso; revert Ht; clear; intros Ht;
       apply (f_equal length) in Ht; rewrite length_app in Ht; simpl in Ht; lia.
Qed.

Lemma dequeued_cons e tr :
  dequeued (e :: tr)
  = match e with EvDequeue _ t => t :: dequeued tr | _ => dequeued tr end.
Proof. by destruct e. Qed.

Lemma dequeued_by_cons i e tr :
  dequeued_by i (e :: tr)
  = match e with
    | EvDequeue j t => if decide (j = i) then t :: dequeued_by i tr else dequeued_by i tr
    | _ => dequeued_by i tr
    end.
Proof. destruct e; try done. unfold dequeued_by. simpl. by case_decide. Qed.

Lemma single_worker_dequeues (tr : list event) :
  Forall (event_ok 1) tr -> dequeued tr = dequeued_by 0 tr.
Proof.
  induction 1 as [|e tr He _ IH]; [done|].
  rewrite dequeued_cons, dequeued_by_cons. destruct e; try done.
  unfold event_ok in He. simpl in He. case_decide; [by rewrite IH | lia].
Qed.

Lemma app_first_occurrence {T} (b : T) (P : list T) : forall X Y Z,
  X ++ b :: Y = P ++ b :: Z -> ~ In b P -> exists W, X = P ++ W.
Proof.
  induction P as [|p P IH]; intros X Y Z He Hb; [by exists X|].
  destruct X as [|x X]; simpl in He; simplify_eq.
  - destruct Hb. by left.
  - destruct (IH X Y Z) as [W ->]; [done | intros ?; apply Hb; by right | by exists W].
Qed.

Lemma finished_by_In i t tr :
  In t (finished_by i tr) ->
  exists e, In e tr /\ (e = EvSkip i t \/ (exists w, e = EvCerr i t w)
                        \/ exists c, t = Some c /\ e = EvReturn i c).
Proof.
  unfold finished_by. induction tr as [|e tr IH]; [done|]. simpl. intros Hin.
  assert (In t (omap (fun e => match e with
                 | EvSkip j t | EvCerr j t _ => if decide (j = i) then Some t else None
                 | EvReturn j c => if decide (j = i) then Some (Some c) else None
                 | _ => None
                 end) tr) -> exists e0, (e = e0 \/ In e0 tr) /\
            (e0 = EvSkip i t \/ (exists w, e0 = EvCerr i t w)
             \/ exists c, t = Some c /\ e0 = EvReturn i c)) as Hrec.
  { intros H. destruct (IH H) as (e0 & ? & ?). exists e0. by split; [right|]. }
  destruct e; simpl in Hin; try by apply Hrec.
  all: case_decide; simplify_eq; try by apply Hrec.
  all: destruct Hin as [<-|Hin]; [|by apply Hrec].
  all: eexists; split; [by left|]; eauto.
Qed.

Lemma enqueued_app l1 l2 : enqueued (l1 ++ l2) = enqueued l1 ++ enqueued l2.
Proof. unfold enqueued. apply omap_app. Qed.

Lemma enqueued_cons t l : enqueued (EvEnqueue t :: l) = t :: enqueued l.
Proof. done. Qed.

(** C6. Tasks leave the queue in the order in which they were appended,
    whichever worker takes them: what was taken so far, followed by what
    is still queued, is the list of appended tasks.  With exactly one
    worker the order of execution is the order of submission: if A was
    appended before B, then whenever B's call starts, A's call has
    already ended (by returning or by a reported exception) earlier in
    the trace.  B stands for one submission: it is not appended before. *)
Theorem fifo_order (n : nat) (s : state) :
  reachable n s ->
  enqueued (trace s) = dequeued (trace s) ++ runqueue s
  /\ (n = 1 -> forall A B l1 l2 l3 m1 m2 i,
        trace s = l1 ++ EvEnqueue (Some A) :: l2 ++ EvEnqueue (Some B) :: l3 ->
        ~ In (Some B) (enqueued (l1 ++ EvEnqueue (Some A) :: l2)) ->
        trace s = m1 ++ EvCall i B :: m2 ->
        i = 0 /\ In (completion 0 A) m1).
Proof.
  intros Hr. split; [by eapply fifo_inv_reachable|].
  intros -> A B l1 l2 l3 m1 m2 i Hen Hfresh Hcall.
  destruct (trace_prefix _ _ Hr _ _ _ Hcall) as (s0 & a & s1 & Hr0 & Ha & Ht0 & Ht1).
  rewrite <- Ht0 in Ht1. pose proof (call_emitted _ _ _ _ _ Ha Ht1) as Hi.
  assert (i = 0) as -> by (pose proof (workers_bound _ _ Hr0);
                           apply lookup_lt_Some in Hi; lia).
  split; [done|].
  pose proof (held_inv_reachable _ _ Hr0 0) as Hh. rewrite Hi in Hh. simpl in Hh.
  pose proof (fifo_inv_reachable _ _ Hr0) as Hf. unfold fifo_inv in Hf.
  rewrite single_worker_dequeues, Hh, Ht0 in Hf.
  2:{ eapply Forall_impl; [by eapply events_inv_reachable|].
      intros e. unfold event_ok. pose proof (workers_bound _ _ Hr0).
      destruct (event_worker e); simpl; lia. }
  assert (enqueued (trace s)
          = enqueued (l1 ++ EvEnqueue (Some A) :: l2) ++ Some B :: enqueued l3) as E1.
  { rewrite Hen. repeat rewrite ?enqueued_app, ?enqueued_cons.
    by rewrite <- app_assoc, <- app_comm_cons. }
  assert (enqueued (trace s)
          = finished_by 0 m1 ++ Some B :: (runqueue s0 ++ enqueued m2)) as E2.
  { rewrite Hcall, enqueued_app, Hf. change (enqueued (EvCall 0 B :: m2)) with (enqueued m2).
    by rewrite <- !app_assoc. }
  rewrite E2 in E1. destruct (app_first_occurrence _ _ _ _ _ E1 Hfresh) as [W HW].
  assert (In (Some A) (finished_by 0 m1)) as HA.
  { rewrite HW, enqueued_app. apply in_or_app. left. apply in_or_app. right. by left. }
  destruct (finished_by_In _ _ _ HA) as (e & Hin & He).
  pose proof (finish_inv_reachable _ _ Hr0) as Hok. unfold finish_inv in Hok.
  rewrite Ht0, Forall_forall in Hok.
  specialize (Hok e ltac:(by apply list_elem_of_In)).
  destruct He as [->|[[w ->]|(c & ? & ->)]]; simplify_eq; simpl in Hok;
    [done | by rewrite Hok | by rewrite Hok].
Qed.

Lemma fifo_order_witness :
  reachable 1 Demo.s_destroyed
  /\ In (completion 0 Demo.c1)
        [EvSpawn 0; EvEnqueue (Some Demo.c1); EvNotifyOne None;
         EvEnqueue (Some Demo.c0); EvNotifyOne None; EvStoreStop; EvNotifyAll;
         EvDequeue 0 (Some Demo.c1); EvCall 0 Demo.c1;
         EvCerr 0 (Some Demo.c1) (Some "boom"%string); EvDequeue 0 (Some Demo.c0)].
Proof.
  assert (reachable 1 Demo.s_destroyed) as Hr
    by (exists (Demo.sched_joined ++ [Client 0]); vm_compute; reflexivity).
  split; [exact Hr|].
  destruct (fifo_order 1 Demo.s_destroyed Hr) as [_ H].
  refine (proj2 (H eq_refl Demo.c1 Demo.c0
            [EvSpawn 0] [EvNotifyOne None]
            [EvNotifyOne None; EvStoreStop; EvNotifyAll;
             EvDequeue 0 (Some Demo.c1); EvCall 0 Demo.c1;
             EvCerr 0 (Some Demo.c1) (Some "boom"%string); EvDequeue 0 (Some Demo.c0);
             EvCall 0 Demo.c0; EvReturn 0 Demo.c0; EvExit 0; EvJoin 0]
            _ [EvReturn 0 Demo.c0; EvExit 0; EvJoin 0] 0 _ _ _)).
  - reflexivity.
  - simpl. intros [H1|[]]. discriminate H1.
  - reflexivity.
Defined.

(** * Further properties of the pool *)

(** ** Mutual exclusion, as seen from outside *)

(** X1. The mutex is a mutex and the queue is only touched under it: in
    every reachable state at most one thread is inside a critical section
    and it is the owner of [queueLock]; a step that changes [runqueue] is
    the pop of line 56 by the worker that owns the mutex or the append of
    line 107 by the client that owns it; and no worker owns the mutex
    while the body of a task runs. *)
Theorem queue_touched_only_under_lock (n : nat) (s : state) :
  reachable n s ->
  (forall i j p q, workers s !! i = Some p -> workers s !! j = Some q ->
     wholds p = true -> wholds q = true -> i = j)
  /\ (cholds (client s) = true ->
        forall i p, workers s !! i = Some p -> wholds p = false)
  /\ (forall a s', exec a s = Some s' -> runqueue s' <> runqueue s ->
        (exists i t, a = Work i /\ queueLock s = Some (Worker i)
                     /\ workers s !! i = Some WPop /\ runqueue s = t :: runqueue s')
        \/ (exists k t, a = Client k /\ queueLock s = Some Main
                        /\ client s = CSubmitEmplace t /\ runqueue s' = runqueue s ++ [t]))
  /\ (forall i c, workers s !! i = Some (WRunning c) -> queueLock s <> Some (Worker i)).
Proof.
  intros Hr. pose proof (lock_inv_reachable _ _ Hr) as [Hw Hc].
  pose proof (owner_inv_reachable _ _ Hr) as Ho.
  split_and!.
  - intros i j p q Hi Hj Hp Hq.
    pose proof (Hw _ _ Hi Hp). pose proof (Hw _ _ Hj Hq). congruence.
  - intros Hh i p Hi. destruct (wholds p) eqn:Hp; [|done].
    pose proof (Hw _ _ Hi Hp). specialize (Hc Hh). congruence.
  - intros a s' H Hq. exec_inv H; simpl in *; try done.
    + right. eexists _, _. split_and!; try done. apply Hc. by rew_fields.
    + left. eexists _, _. split_and!; try done. by eapply Hw.
  - intros i c Hi Hl. unfold owner_inv in Ho. rewrite Hl in Ho.
    destruct Ho as (p & Hp & Hh). by simplify_eq.
Qed.

Lemma queue_touched_only_under_lock_witness :
  reachable 1 Demo.s_running
  /\ workers Demo.s_running !! 0 = Some (WRunning Demo.c1)
  /\ queueLock Demo.s_running <> Some (Worker 0).
Proof.
  assert (reachable 1 Demo.s_running) as Hr by (exists Demo.sched_running; reflexivity).
  split; [exact Hr|]. split; [reflexivity|].
  exact (proj2 (proj2 (proj2 (queue_touched_only_under_lock 1 Demo.s_running Hr)))
           0 Demo.c1 eq_refl).
Defined.

(** ** One shutdown never faults *)

Lemma first_inv_step s a s' :
  wait_inv s -> stop_inv s -> first_inv s -> exec a s = Some s' -> first_inv s'.
Proof.
  intros Hw (S1 & S2 & S3 & S4 & S5) [F1 F2] H.
  exec_inv H; unfold first_inv; simpl in *.
  all: trace_simpl.
  all: rew_fields; simpl in *.
  all: split; [intros Hst Hc j Hj; split_lookup Hj; simpl in *|]; try done.
  all: try (by apply F1).
  all: try (by intros ?; apply F2).
  all: try lia.
  all: try (exfalso; pose proof (S2 ltac:(lia)) as E;
            by rewrite (S3 _ _ Hj eq_refl) in E).
  all: try (by eexists; split; [done|lia]).
  all: try (match goal with x : wpc |- _ => destruct x; simplify_eq/= end).
  all: try (destruct (F1 Hst eq_refl _ Hj) as (i0 & Ei & Hlt); simplify_eq;
            eexists; split; [done|lia]).
  all: try (intros _;
            match goal with |- 2 <= ?x =>
              destruct (decide (x = 0)) as [E0|];
              [ specialize (S2 E0); specialize (S4 eq_refl); congruence
              | destruct (decide (x = 1)) as [E1|]; [|lia] ]
            end;
            match goal with Hi : workers _ !! _ = Some WJoined |- _ =>
              destruct (F1 E1 eq_refl _ Hi) as (i0 & Ei & Hlt); simplify_eq; lia
            end).
  all: try (exfalso; by destruct (F1 Hst eq_refl _ Hj) as (? & ? & ?)).
  use_all Hw. unfold wait_post in *. rew_fields. done.
Qed.

Lemma first_inv_reachable n s : reachable n s -> first_inv s.
Proof.
  induction 1 as [|s a s' Hr IH Ha] using reachable_ind'; [done|].
  eapply first_inv_step; eauto using wait_inv_reachable, stop_inv_reachable.
Qed.

(** X2. A pool whose shutdown is requested at most once never faults:
    whatever the schedule, no [front]/[pop] on an empty queue and no
    [join] on a handle that is not joinable; and a handle has been
    joined only once the flag is set and only if the join loop has
    already passed it. *)
Theorem one_shutdown_never_faults (n : nat) (sched : list action) (s : state) :
  run sched (init n) = Some s ->
  shutdown_calls sched <= 1 ->
  fault s = None
  /\ forall j, workers s !! j = Some WJoined ->
       shouldStop s = true
       /\ forall i, joining (client s) = Some i -> j < i.
Proof.
  intros Hrun Hc.
  assert (reachable n s) as Hr by by exists sched.
  pose proof (store_count _ _ _ Hrun) as Hs.
  destruct (first_inv_reachable _ _ Hr) as [F1 F2].
  destruct (stop_inv_reachable _ _ Hr) as (S1 & S2 & S3 & S4 & S5).
  split.
  - destruct (fault s) eqn:Ef; [|done]. assert (2 <= stores (trace s)) by by apply F2. lia.
  - intros j Hj. split; [by eapply S3|].
    intros i Hi. assert (stopping (client s) = true) as Hst by by destruct (client s) as [| | | | | |[]|[]|].
    assert (stores (trace s) = 1) as H1.
    { specialize (S4 Hst). destruct (stores (trace s)) as [|[|]] eqn:E; [|done|lia].
      specialize (S2 eq_refl). congruence. }
    destruct (F1 H1 Hst _ Hj) as (i' & Ei & Hlt). congruence.
Qed.

Lemma one_shutdown_never_faults_witness :
  fault Demo.s_destroyed = None
  /\ forall j, workers Demo.s_destroyed !! j = Some WJoined ->
       shouldStop Demo.s_destroyed = true
       /\ forall i, joining (client Demo.s_destroyed) = Some i -> j < i.
Proof.
  apply (one_shutdown_never_faults 1 (Demo.sched_joined ++ [Client 0]));
    vm_compute; [reflexivity | lia].
Defined.

(** ** A second shutdown *)





(** ** A worker the notification missed *)

Lemma missed_step i s a s' :
  missed i s -> exec a s = Some s' -> a <> Spurious i -> missed i s'.
Proof.
  intros (Hi & j & Hj & Hle) H Hne. unfold missed.
  exec_inv H; simpl in *; rew_fields; simpl in *; simplify_eq.
  all: try (split; [|by eauto]).
  all: try done.
  all: try (rewrite list_lookup_insert_ne; [done|intros ->; simplify_eq]; done).
  all: try (match goal with Hl : workers _ !! _ = None |- _ =>
              apply lookup_ge_None_1 in Hl; apply lookup_lt_Some in Hi; lia
            end).
  all: split; [rewrite list_lookup_insert_ne; [done|intros ->; simplify_eq]|].
  all: eexists; split; [done|].
  all: match goal with |- S ?j <= _ =>
         destruct (decide (j = i)) as [->|]; [simplify_eq|lia]
       end.
Qed.

Lemma missed_run i l : forall s s',
  missed i s -> run l s = Some s' -> ~ In (Spurious i) l -> missed i s'.
Proof.
  induction l as [|a l IH]; intros s s' Hm Hrun Hn; simpl in Hrun; [by simplify_eq|].
  destruct (exec a s) as [s1|] eqn:Ea; [|done].
  eapply IH; [by eapply missed_step; [done|done|intros ->; apply Hn; left]|done|].
  intros ?. apply Hn. by right.
Qed.

Lemma wake_all_repeat m : wake_all (repeat WLock m) = repeat WLock m.
Proof. induction m as [|m IH]; [done|]. simpl. by f_equal. Qed.

(** The notification of a shutdown can pass a worker between its
    evaluation of the predicate and its blocking. *)
Lemma missed_reachable m :
  run (repeat (Client 0) (S (S m))
       ++ [Work 0; Work 0; Call Destroy; Client 0; Client 0; Work 0]) (init (S m))
  = Some (State true (WSleep :: repeat WLock m) [] None (CDtor (SJoin 0)) None
            (map EvSpawn (seq 0 (S m)) ++ [EvStoreStop; EvNotifyAll])).
Proof.
  rewrite run_app. unfold init. rewrite (ctor_loop (S m) (S m) 0 [] []) by lia.
  cbn [app repeat]. do 6 run0. simpl. by rewrite wake_all_repeat, <- app_assoc.
Qed.

(** X4. The destructor can block forever.  The flag is stored without
    the mutex, so [notify_all] can come between a worker's evaluation of
    the predicate on line 45 and its blocking: for every pool size there
    is a schedule, without a single task, after which worker 0 sleeps
    while the destructor waits in its first [join].  From any such state,
    whatever the threads do, the worker stays blocked and the shutdown
    stays inside its join loop unless that worker wakes up spuriously. *)
Theorem destructor_can_block_forever (n : nat) :
  0 < n ->
  (exists s, reachable n s /\ missed 0 s /\ client s = CDtor (SJoin 0)
             /\ fault s = None /\ shouldStop s = true /\ runqueue s = []
             /\ enqueued (trace s) = [])
  /\ (forall i s l s', missed i s -> run l s = Some s' -> ~ In (Spurious i) l ->
        workers s' !! i = Some WSleep
        /\ stopping (client s') = true
        /\ exec (Work i) s' = None
        /\ (forall k j, joining (client s') = Some j -> j = i -> exec (Client k) s' = None)).
Proof.
  intros Hn. split.
  - destruct n as [|m]; [lia|]. eexists. split; [eexists; apply missed_reachable|].
    simpl. split_and!; try done.
    + split; [done|]. by exists 0.
    + unfold enqueued. rewrite omap_app. simpl. rewrite app_nil_r.
      clear. generalize 1. induction m as [|m IH]; intros a; [done|]. simpl. apply IH.
  - intros i s l s' Hm Hrun Hl.
    destruct (missed_run _ _ _ _ Hm Hrun Hl) as (Hi & j & Hj & Hle).
    split_and!; [done| |..].
    + by destruct (client s') as [| | | | | |[]|[]|].
    + unfold exec. destruct (fault s'); [done|]. by rewrite Hi.
    + intros k j' Hj' ->. unfold exec. destruct (fault s'); [done|].
      destruct (client s') as [| | | | | |[]|[]|]; simplify_eq/=; by rewrite Hi.
Qed.

Lemma destructor_can_block_forever_witness :
  exists s, reachable 1 s /\ missed 0 s /\ client s = CDtor (SJoin 0)
            /\ fault s = None /\ shouldStop s = true /\ runqueue s = []
            /\ enqueued (trace s) = [].
Proof. apply (destructor_can_block_forever 1). lia. Defined.

(** ** Every task exactly once *)

Lemma submitted_step s a s' :
  exec a s = Some s' ->
  enqueued (trace s') ++ in_flight (client s')
  = enqueued (trace s) ++ in_flight (client s) ++ submitted [a].
Proof.
  intros H. exec_inv H; simpl; trace_simpl; rew_fields; simpl; rewrite ?app_nil_r; done.
Qed.

Lemma submitted_run n sched : forall s,
  run sched (init n) = Some s ->
  submitted sched = enqueued (trace s) ++ in_flight (client s).
Proof.
  induction sched as [|a sched IH] using rev_ind; intros s H.
  - by simplify_eq/=.
  - rewrite run_app in H. destruct (run sched (init n)) as [s0|] eqn:E; [|done].
    simpl in H. destruct (exec a s0) as [s1|] eqn:Ea; [|done]. simplify_eq.
    unfold submitted at 1. rewrite omap_app. fold (submitted sched) (submitted [a]).
    rewrite (IH _ eq_refl), (submitted_step _ _ _ Ea). by rewrite app_assoc.
Qed.

Lemma perm_eq {A} (l k : list A) : l = k -> l ≡ₚ k.
Proof. by intros ->. Qed.

Lemma concat_pick {A} (f : nat -> list A) (x : A) i m : forall a,
  a <= i < a + m ->
  concat (map (fun j => if decide (i = j) then x :: f j else f j) (seq a m))
  ≡ₚ x :: concat (map f (seq a m)).
Proof.
  induction m as [|m IH]; intros a H; [lia|]. simpl.
  destruct (decide (i = a)) as [->|].
  - simpl. do 2 f_equiv. apply perm_eq. f_equal. apply map_ext_in.
    intros j Hj%in_seq. destruct (decide (a = j)); [lia|done].
  - rewrite IH by lia. by rewrite Permutation_middle.
Qed.

Lemma concat_map_nil {A} (l : list nat) :
  concat (map (fun _ => @nil A) l) = [].
Proof. by induction l. Qed.

Lemma finished_by_cons i e tr :
  finished_by i (e :: tr)
  = match e with
    | EvSkip j t | EvCerr j t _ =>
        if decide (j = i) then t :: finished_by i tr else finished_by i tr
    | EvReturn j c =>
        if decide (j = i) then Some c :: finished_by i tr else finished_by i tr
    | _ => finished_by i tr
    end.
Proof. unfold finished_by. destruct e; simpl; try done; by case_decide. Qed.

Lemma completed_cons e tr :
  completed (e :: tr)
  = match e with
    | EvSkip _ t | EvCerr _ t _ => t :: completed tr
    | EvReturn _ c => Some c :: completed tr
    | _ => completed tr
    end.
Proof. by destruct e. Qed.

Lemma dequeued_split m tr :
  Forall (event_ok m) tr ->
  dequeued tr ≡ₚ concat (map (fun j => dequeued_by j tr) (seq 0 m)).
Proof.
  induction 1 as [|e tr He Htr IH].
  - unfold dequeued, dequeued_by. simpl. by rewrite concat_map_nil.
  - rewrite dequeued_cons.
    destruct e; try (rewrite IH; apply perm_eq; do 2 f_equal; done).
    rewrite IH, <- (concat_pick _ _ i) by (unfold event_ok in He; simpl in He; lia).
    apply perm_eq. f_equal. apply map_ext. intros j. by rewrite dequeued_by_cons.
Qed.

Lemma completed_split m tr :
  Forall (event_ok m) tr ->
  completed tr ≡ₚ concat (map (fun j => finished_by j tr) (seq 0 m)).
Proof.
  induction 1 as [|e tr He Htr IH].
  - unfold completed, finished_by. simpl. by rewrite concat_map_nil.
  - rewrite completed_cons.
    destruct e; try (rewrite IH; apply perm_eq; do 2 f_equal; done).
    all: rewrite IH, <- (concat_pick _ _ i) by (unfold event_ok in He; simpl in He; lia).
    all: apply perm_eq; f_equal; apply map_ext; intros j; by rewrite finished_by_cons.
Qed.

Lemma concat_map_submseteq {A} (f g : nat -> list A) (l : list nat) :
  (forall j, f j ⊆+ g j) -> concat (map f l) ⊆+ concat (map g l).
Proof.
  intros H. induction l as [|j l IH]; [done|]. simpl. by apply submseteq_app.
Qed.

Lemma dequeued_by_sublist i tr : sublist (dequeued_by i tr) (dequeued tr).
Proof.
  induction tr as [|e tr IH]; [done|].
  rewrite dequeued_cons, dequeued_by_cons. destruct e; try done.
  case_decide; [by apply sublist_skip | by apply sublist_cons].
Qed.

Lemma event_ok_mono m m' e : m <= m' -> event_ok m e -> event_ok m' e.
Proof. unfold event_ok. destruct (event_worker e); simpl; [lia|done]. Qed.

Lemma events_ok n s : reachable n s -> Forall (event_ok n) (trace s).
Proof.
  intros Hr. eapply Forall_impl; [exact (events_inv_reachable _ _ Hr)|].
  intros e. apply event_ok_mono. by eapply workers_bound.
Qed.

Lemma destroyed_inv_reachable n s : reachable n s -> destroyed_inv n s.
Proof.
  induction 1 as [|s a s' Hr IH Ha] using reachable_ind'; [by intros _ ?|].
  intros Hn Hc. unfold destroyed_inv in IH.
  assert (client s = CDestroyed -> False) as Hnot.
  { intros E. destruct (IH Hn E) as (_ & _ & _ & Hall & _).
    exec_inv Ha; simpl in *; try congruence.
    all: match goal with Hl : workers _ !! _ = Some _ |- _ =>
           specialize (Hall _ _ Hl); simplify_eq/= end. }
  exec_inv Ha; simpl in *; try congruence.
  pose proof (shutdown_done_drained n s i Hn Hr) as Hd.
  destruct Hd as (? & ? & ? & ? & ? & ?); [by rew_fields|done|].
  by split_and!.
Qed.

(** X5. Every task is executed at most once, and exactly once by the
    time the destructor of a pool with a worker returns: at any moment
    the tasks the workers are done with are, as a multiset, among the
    tasks handed to [submitTask], and each worker went through its share
    in submission order; once the destructor has returned they are a
    permutation of all the tasks ever submitted, the queue is empty,
    there was no fault and no thread of the pool can take another step. *)
Theorem every_task_runs_exactly_once (n : nat) (sched : list action) (s : state) :
  run sched (init n) = Some s ->
  completed (trace s) ⊆+ submitted sched
  /\ (forall j, sublist (finished_by j (trace s)) (submitted sched))
  /\ (0 < n -> client s = CDestroyed ->
        completed (trace s) ≡ₚ submitted sched
        /\ runqueue s = [] /\ fault s = None
        /\ forall a, exec a s = None).
Proof.
  intros Hrun. assert (reachable n s) as Hr by by exists sched.
  pose proof (submitted_run _ _ _ Hrun) as Hsub.
  pose proof (fifo_inv_reachable _ _ Hr) as Hf. unfold fifo_inv in Hf.
  pose proof (held_inv_reachable _ _ Hr) as Hh. unfold held_inv in Hh.
  pose proof (events_ok _ _ Hr) as He.
  split_and!.
  - rewrite Hsub, Hf, (completed_split n), (dequeued_split n) by done.
    rewrite <- !app_assoc. apply submseteq_inserts_r.
    apply concat_map_submseteq. intros j. rewrite Hh. by apply submseteq_inserts_r.
  - intros j. rewrite Hsub, Hf, <- !app_assoc. apply sublist_inserts_r.
    etrans; [|apply (dequeued_by_sublist j)]. rewrite Hh. by apply sublist_inserts_r.
  - intros Hn Hc.
    destruct (destroyed_inv_reachable _ _ Hr Hn Hc) as (Hfl & _ & Hq & Hall & Hed & Hdf).
    split_and!; try done.
    + rewrite Hsub, Hed, Hc, app_nil_r, (completed_split n), (dequeued_split n) by done.
      apply perm_eq. f_equal. apply map_ext. intros j. by rewrite Hdf.
    + intros a. unfold exec. rewrite Hfl. destruct a as [o|k|i|i]; simpl.
      * unfold call. by rewrite Hc.
      * by rewrite Hc.
      * destruct (workers s !! i) as [p|] eqn:Ep; [|done]. by rewrite (Hall _ _ Ep).
      * destruct (workers s !! i) as [p|] eqn:Ep; [|done]. by rewrite (Hall _ _ Ep).
Qed.

Lemma every_task_runs_exactly_once_witness :
  completed (trace Demo.s_destroyed) ≡ₚ [Some Demo.c1; Some Demo.c0]
  /\ runqueue Demo.s_destroyed = [] /\ fault Demo.s_destroyed = None
  /\ forall a, exec a Demo.s_destroyed = None.
Proof.
  apply (every_task_runs_exactly_once 1 (Demo.sched_joined ++ [Client 0]) Demo.s_destroyed);
    [vm_compute; reflexivity | lia | reflexivity].
Defined.

(** ** main *)








(** * PoolAllocator (src/allocator/PoolAllocator.cpp)

    A free list of fixed-size chunks carved out of pools obtained from
    [std::aligned_alloc].  Addresses and sizes are integers, [nullptr] is
    0.  The [next] field of the chunk at an address lives in a heap that
    maps addresses to the pointer stored there; an address without an
    entry holds an indeterminate value.  What [std::aligned_alloc] returns
    is not in the hands of the program: the call takes its result as an
    argument, 0 for a failed allocation.  A failed [assert] and undefined
    behaviour end a call with [None]. *)

From stdpp Require Import gmap.

Module PoolAllocator.
Local Open Scope Z_scope.

(** ** nearestPowerOfTwo, lines 8-14 *)

(** Number of 0-bits above the highest 1-bit among the lowest [w] bits. *)
Fixpoint leading_zeros (w : nat) (x : Z) : Z :=
  match w with
  | O => 0
  | S w' => if Z.testbit x (Z.of_nat w') then 0 else 1 + leading_zeros w' x
  end.

(** [__builtin_clzll]: the result is undefined for 0. *)
Definition clzll (x : Z) : option Z :=
  if x =? 0 then None else Some (leading_zeros 64 x).

(** [1ULL << k]: a shift by the width of the type or more is undefined. *)
Definition shl64 (k : Z) : option Z :=
  if (0 <=? k) && (k <? 64) then Some (Z.shiftl 1 k mod 2 ^ 64) else None.

Definition nearestPowerOfTwo (n : Z) : option Z :=
  if (n =? 0) || (n =? 1) then Some 1
  else match clzll (n - 1) with
       | Some z => shl64 (64 - z)
       | None => None
       end.

(** ** The allocator *)

(** [sizeof(Chunk)]: one pointer. *)
Definition sizeof_Chunk : Z := 8.

Record allocator := Allocator {
  mPoolSize_ : Z;
  mAlignment_ : Z;
  mChunksPerPool_ : Z;
  mPools_ : list Z;
  mFreelist : Z;
  heap : gmap Z Z
}.

Definition with_freelist (f : Z) (a : allocator) : allocator :=
  Allocator (mPoolSize_ a) (mAlignment_ a) (mChunksPerPool_ a) (mPools_ a) f (heap a).
Definition with_heap (h : gmap Z Z) (a : allocator) : allocator :=
  Allocator (mPoolSize_ a) (mAlignment_ a) (mChunksPerPool_ a) (mPools_ a) (mFreelist a) h.
Definition with_pools (ps : list Z) (a : allocator) : allocator :=
  Allocator (mPoolSize_ a) (mAlignment_ a) (mChunksPerPool_ a) ps (mFreelist a) (heap a).

(** The constructor, lines 81-87, for a [T] of [sizeofT] bytes. *)
Definition PoolAllocator (sizeofT poolSize : Z) : option allocator :=
  match nearestPowerOfTwo sizeofT with
  | Some r =>
      let alignment := Z.max 64 r in
      Some (Allocator poolSize alignment (poolSize / alignment) [] 0 ∅)
  | None => None
  end.

(** [chunk->next = v] for a chunk of the pool at [pool]: the eight bytes
    written have to lie inside the [size] bytes of the pool. *)
Definition store_next (pool size chunk v : Z) (h : gmap Z Z) : option (gmap Z Z) :=
  if (pool <=? chunk) && (chunk + sizeof_Chunk <=? pool + size)
  then Some (<[chunk := v]> h) else None.

(** The loop of lines 66-73 with [k] iterations to go: the chunk reached
    and the heap. *)
Fixpoint link (k : nat) (pool size alignment chunk : Z) (h : gmap Z Z)
  : option (Z * gmap Z Z) :=
  match k with
  | O => Some (chunk, h)
  | S k' =>
      match store_next pool size chunk (chunk + alignment) h with
      | Some h' => link k' pool size alignment (chunk + alignment) h'
      | None => None
      end
  end.

(** [allocatePool], lines 46-78; [newPool] is what [std::aligned_alloc]
    returned. *)
Definition allocatePool (newPool : Z) (a : allocator) : option allocator :=
  if newPool =? 0 then Some a
  else if negb (mFreelist a =? 0) then None
  else
    match link (Z.to_nat (mChunksPerPool_ a - 1)) newPool (mPoolSize_ a)
               (mAlignment_ a) newPool (heap a) with
    | Some (chunk, h) =>
        match store_next newPool (mPoolSize_ a) chunk 0 h with
        | Some h' =>
            Some (with_heap h' (with_freelist newPool (with_pools (mPools_ a ++ [newPool]) a)))
        | None => None
        end
    | None => None
    end.

(** Lines 106-108 and 120-122: take the head of the free list. *)
Definition take_head (a : allocator) : option (Z * allocator) :=
  match heap a !! mFreelist a with
  | Some nxt => Some (mFreelist a, with_freelist nxt a)
  | None => None
  end.

(** [allocate], lines 101-123, with the result [std::aligned_alloc] would
    give if it is called. *)
Definition allocate (newPool : Z) (a : allocator) : option (Z * allocator) :=
  if negb (mFreelist a =? 0) then take_head a
  else
    match allocatePool newPool a with
    | Some a' => if mFreelist a' =? 0 then Some (0, a') else take_head a'
    | None => None
    end.

(** The loop of lines 141-147. *)
Definition fromPools (ptr : Z) (a : allocator) : bool :=
  existsb (fun pool => (pool <=? ptr) && (ptr <? pool + mPoolSize_ a)) (mPools_ a).

(** [deallocate], lines 131-158; [ndebug] tells whether [NDEBUG] is
    defined. *)
Definition deallocate (ndebug : bool) (ptr : Z) (a : allocator) : option allocator :=
  if ptr =? 0 then Some a
  else if negb ndebug && negb (fromPools ptr a) then None
  else Some (with_freelist ptr (with_heap (<[ptr := mFreelist a]> (heap a)) a)).

(** ** A client of the allocator *)

Inductive request :=
| Allocate (newPool : Z)
| Deallocate (ptr : Z).

(** The allocator together with the addresses handed out and not given
    back; the second component is bookkeeping of the client. *)
Definition serve (ndebug : bool) (r : request) (st : allocator * gset Z)
  : option (Z * (allocator * gset Z)) :=
  let '(a, live) := st in
  match r with
  | Allocate newPool =>
      match allocate newPool a with
      | Some (p, a') => Some (p, (a', if p =? 0 then live else {[p]} ∪ live))
      | None => None
      end
  | Deallocate ptr =>
      match deallocate ndebug ptr a with
      | Some a' => Some (0, (a', live ∖ {[ptr]}))
      | None => None
      end
  end.

Fixpoint serve_all (ndebug : bool) (rs : list request) (st : allocator * gset Z)
  : option (list Z * (allocator * gset Z)) :=
  match rs with
  | [] => Some ([], st)
  | r :: rs' =>
      match serve ndebug r st with
      | Some (p, st') =>
          match serve_all ndebug rs' st' with
          | Some (ps, st'') => Some (p :: ps, st'')
          | None => None
          end
      | None => None
      end
  end.

(** The chunks of a pool, lowest address first. *)
Fixpoint carve (k : nat) (alignment chunk : Z) : list Z :=
  match k with
  | O => []
  | S k' => chunk :: carve k' alignment (chunk + alignment)
  end.

(** The free list, read off the heap. *)
Fixpoint chain (h : gmap Z Z) (head : Z) (l : list Z) : Prop :=
  match l with
  | [] => head = 0
  | x :: l' => head = x /\ x <> 0 /\ exists nxt, h !! x = Some nxt /\ chain h nxt l'
  end.

(** [std::aligned_alloc] fails or returns a block that overlaps no pool. *)
Definition fresh (a : allocator) (p : Z) : bool :=
  (p =? 0)
  || ((0 <? p)
      && forallb (fun q => (p + mPoolSize_ a <=? q) || (q + mPoolSize_ a <=? p)) (mPools_ a)).

(** The client gives back what it was given, once. *)
Definition valid (st : allocator * gset Z) (r : request) : bool :=
  let '(a, live) := st in
  match r with
  | Allocate newPool => fresh a newPool
  | Deallocate ptr => (ptr =? 0) || bool_decide (ptr ∈ live)
  end.

Fixpoint valid_all (ndebug : bool) (rs : list request) (st : allocator * gset Z) : bool :=
  match rs with
  | [] => true
  | r :: rs' =>
      valid st r
      && match serve ndebug r st with
         | Some (_, st') => valid_all ndebug rs' st'
         | None => true
         end
  end.

(** [x] is the address of a chunk of one of the pools. *)
Definition chunk_of (a : allocator) (x : Z) : Prop :=
  exists q i, q ∈ mPools_ a /\ 0 <= i < mChunksPerPool_ a /\ x = q + i * mAlignment_ a.

(** The free list and the chunks in use partition the chunks handed to
    the allocator so far. *)
Definition consistent (st : allocator * gset Z) : Prop :=
  let '(a, live) := st in
  64 <= mAlignment_ a <= mPoolSize_ a
  /\ mChunksPerPool_ a = mPoolSize_ a / mAlignment_ a
  /\ (forall q, q ∈ mPools_ a -> 0 < q)
  /\ (forall q q', q ∈ mPools_ a -> q' ∈ mPools_ a -> q <> q' ->
        q + mPoolSize_ a <= q' \/ q' + mPoolSize_ a <= q)
  /\ exists l, chain (heap a) (mFreelist a) l
       /\ NoDup l
       /\ (forall x, x ∈ l -> x ∉ live)
       /\ (forall x, x ∈ l -> chunk_of a x)
       /\ (forall x, x ∈ live -> chunk_of a x).

(** ** nearestPowerOfTwo *)

Lemma leading_zeros_log2 (w : nat) (x : Z) :
  0 < x < 2 ^ Z.of_nat w -> leading_zeros w x = Z.of_nat w - 1 - Z.log2 x.
Proof.
  induction w as [|w IH]; intros H; [simpl in H; lia|].
  cbn [leading_zeros]. rewrite Nat2Z.inj_succ in *. rewrite Z.pow_succ_r in H by lia.
  destruct (Z_lt_le_dec x (2 ^ Z.of_nat w)) as [Hlt|Hge].
  - rewrite Z.bits_above_log2 by (try apply Z.log2_lt_pow2; lia).
    rewrite IH by lia. lia.
  - assert (Z.log2 x = Z.of_nat w) as E.
    { apply Z.log2_unique; [lia|]. rewrite Z.pow_succ_r by lia. lia. }
    rewrite <- E at 1. rewrite Z.bit_log2 by lia. lia.
Qed.

Lemma nearestPowerOfTwo_cases (n : Z) :
  0 <= n < 2 ^ 64 ->
  (n <= 2 ^ 63 ->
     exists k, 0 <= k <= 63 /\ nearestPowerOfTwo n = Some (2 ^ k)
               /\ n <= 2 ^ k /\ forall j, 0 <= j -> n <= 2 ^ j -> k <= j)
  /\ (2 ^ 63 < n -> nearestPowerOfTwo n = None).
Proof.
  intros Hn. unfold nearestPowerOfTwo, clzll, shl64.
  destruct (Z.eqb_spec n 0) as [->|H0].
  { split; [|lia]. intros _. exists 0. split_and!; try done; lia. }
  destruct (Z.eqb_spec n 1) as [->|H1].
  { split; [|lia]. intros _. exists 0. split_and!; try done; lia. }
  cbn [orb]. destruct (Z.eqb_spec (n - 1) 0) as [|_]; [lia|].
  rewrite (leading_zeros_log2 64) by (simpl; lia).
  pose proof (Z.log2_spec (n - 1) ltac:(lia)) as [L1 L2].
  pose proof (Z.log2_nonneg (n - 1)) as L0.
  replace (64 - (Z.of_nat 64 - 1 - Z.log2 (n - 1))) with (Z.log2 (n - 1) + 1) by lia.
  rewrite Z.shiftl_1_l.
  split.
  - intros Hle. assert (Z.log2 (n - 1) < 63) as Hk by (apply Z.log2_lt_pow2; lia).
    exists (Z.log2 (n - 1) + 1).
    assert (2 ^ (Z.log2 (n - 1) + 1) <= 2 ^ 63) as Hp by (apply Z.pow_le_mono_r; lia).
    destruct (Z.leb_spec 0 (Z.log2 (n - 1) + 1)); [|lia].
    destruct (Z.ltb_spec (Z.log2 (n - 1) + 1) 64); [|lia]. simpl.
    rewrite Z.mod_small by lia.
    split_and!; try done; try lia.
    intros j Hj Hnj. assert (Z.log2 (n - 1) < j); [|lia].
    apply Z.log2_lt_pow2; lia.
  - intros Hgt. assert (63 <= Z.log2 (n - 1)) as Hk by (apply Z.log2_le_pow2; lia).
    destruct (Z.ltb_spec (Z.log2 (n - 1) + 1) 64); [lia|]. by rewrite andb_false_r.
Qed.

(** X7. [nearestPowerOfTwo] returns the least power of two that is not
    below its argument, 1 for 0, as long as that power fits 64 bits, that
    is for arguments up to 2^63; above, the shift count is 64 and the
    result is undefined. *)
Theorem nearestPowerOfTwo_least_power (n : Z) :
  0 <= n < 2 ^ 64 ->
  (n <= 2 ^ 63 ->
     exists k, 0 <= k <= 63 /\ nearestPowerOfTwo n = Some (2 ^ k)
               /\ n <= 2 ^ k /\ forall j, 0 <= j -> n <= 2 ^ j -> k <= j)
  /\ (2 ^ 63 < n -> nearestPowerOfTwo n = None).
Proof. apply nearestPowerOfTwo_cases. Qed.

Lemma nearestPowerOfTwo_least_power_witness :
  exists k, 0 <= k <= 63 /\ nearestPowerOfTwo 100 = Some (2 ^ k)
            /\ 100 <= 2 ^ k /\ forall j, 0 <= j -> 100 <= 2 ^ j -> k <= j.
Proof. apply (nearestPowerOfTwo_least_power 100); lia. Defined.

(** ** The free list *)

Lemma chain_insert (h : gmap Z Z) (x v : Z) (l : list Z) : forall head,
  x ∉ l -> chain h head l -> chain (<[x := v]> h) head l.
Proof.
  induction l as [|y l IH]; intros head Hx; simpl; [done|].
  intros (-> & Hy & nxt & Hn & Hc). apply not_elem_of_cons in Hx as [Hne Hx].
  split_and!; [done|done|]. exists nxt. split; [by rewrite lookup_insert_ne|by apply IH].
Qed.

Lemma elem_of_carve (k : nat) (A : Z) : forall c x,
  x ∈ carve k A c <-> exists i, 0 <= i < Z.of_nat k /\ x = c + i * A.
Proof.
  induction k as [|k IH]; intros c x; simpl.
  - rewrite elem_of_nil. split; [done|]. intros (i & ? & _). lia.
  - rewrite elem_of_cons, IH. split.
    + intros [->|(i & Hi & ->)]; [exists 0; lia | exists (i + 1); lia].
    + intros (i & Hi & ->). destruct (decide (i = 0)) as [->|]; [left; lia|].
      right. exists (i - 1). lia.
Qed.

Lemma NoDup_carve (k : nat) (A : Z) : 0 < A -> forall c, NoDup (carve k A c).
Proof.
  intros HA. induction k as [|k IH]; intros c; simpl; constructor; [|apply IH].
  rewrite elem_of_carve. intros (i & Hi & E). nia.
Qed.

Lemma link_spec (pool size A : Z) : 0 < A -> forall (k : nat) chunk h,
  0 < chunk -> pool <= chunk ->
  chunk + Z.of_nat k * A + sizeof_Chunk <= pool + size ->
  exists h',
    link k pool size A chunk h = Some (chunk + Z.of_nat k * A, h')
    /\ (forall x, x < chunk \/ chunk + Z.of_nat k * A <= x -> h' !! x = h !! x)
    /\ chain (<[chunk + Z.of_nat k * A := 0]> h') chunk (carve (S k) A chunk).
Proof.
  intros HA. induction k as [|k IH]; intros chunk h H0 Hp Hb.
  - exists h. simpl. rewrite Z.add_0_r. split_and!; try done; try lia.
    exists 0. by rewrite lookup_insert_eq.
  - cbn [link]. unfold store_next.
    destruct (Z.leb_spec pool chunk); [|lia].
    destruct (Z.leb_spec (chunk + sizeof_Chunk) (pool + size)); [|lia]. cbn [andb].
    destruct (IH (chunk + A) (<[chunk := chunk + A]> h)) as (h' & E & Hout & Hc); [lia..|].
    replace (chunk + A + Z.of_nat k * A) with (chunk + Z.of_nat (S k) * A) in * by lia.
    exists h'. split_and!; [done| |].
    + intros x Hx. rewrite Hout by lia. apply lookup_insert_ne. lia.
    + cbn [carve chain]. split_and!; [done|lia|]. exists (chunk + A). split; [|done].
      rewrite lookup_insert_ne by lia. rewrite Hout by lia. apply lookup_insert_eq.
Qed.

(** A pool that holds at least one chunk is cut into
    [mChunksPerPool_] chunks, lowest address first. *)
Lemma allocatePool_spec (p : Z) (a : allocator) :
  64 <= mAlignment_ a <= mPoolSize_ a ->
  mChunksPerPool_ a = mPoolSize_ a / mAlignment_ a ->
  mFreelist a = 0 -> 0 < p ->
  exists h,
    allocatePool p a
    = Some (with_heap h (with_freelist p (with_pools (mPools_ a ++ [p]) a)))
    /\ chain h p (carve (Z.to_nat (mChunksPerPool_ a)) (mAlignment_ a) p).
Proof.
  intros HA Hc Hf Hp. unfold allocatePool. rewrite Hf.
  destruct (Z.eqb_spec p 0); [lia|]. cbn [Z.eqb negb].
  assert (1 <= mChunksPerPool_ a) as H1.
  { rewrite Hc. apply Z.div_le_lower_bound; lia. }
  assert (mChunksPerPool_ a * mAlignment_ a <= mPoolSize_ a) as H2.
  { rewrite Hc, Z.mul_comm. apply Z.mul_div_le. lia. }
  destruct (link_spec p (mPoolSize_ a) (mAlignment_ a) ltac:(lia)
              (Z.to_nat (mChunksPerPool_ a - 1)) p (heap a)) as (h' & E & _ & Hch);
    [lia|lia|unfold sizeof_Chunk; nia|].
  rewrite E. unfold store_next.
  destruct (Z.leb_spec p (p + Z.of_nat (Z.to_nat (mChunksPerPool_ a - 1)) * mAlignment_ a));
    [|nia].
  destruct (Z.leb_spec (p + Z.of_nat (Z.to_nat (mChunksPerPool_ a - 1)) * mAlignment_ a
                        + sizeof_Chunk) (p + mPoolSize_ a)); [|unfold sizeof_Chunk in *; nia].
  cbn [andb]. eexists. split; [done|].
  by replace (Z.to_nat (mChunksPerPool_ a)) with (S (Z.to_nat (mChunksPerPool_ a - 1))) by lia.
Qed.

Lemma take_head_chain (a : allocator) (x : Z) (l : list Z) :
  chain (heap a) (mFreelist a) (x :: l) ->
  exists nxt, take_head a = Some (x, with_freelist nxt a) /\ chain (heap a) nxt l
              /\ mFreelist a <> 0.
Proof.
  simpl. intros (E & Hx & nxt & Hn & Hc). exists nxt. unfold take_head.
  rewrite E, Hn. split_and!; [done|done|congruence].
Qed.

Lemma allocate_chain (np : Z) (a : allocator) (x : Z) (l : list Z) :
  chain (heap a) (mFreelist a) (x :: l) ->
  exists nxt, allocate np a = Some (x, with_freelist nxt a) /\ chain (heap a) nxt l.
Proof.
  intros Hc. destruct (take_head_chain _ _ _ Hc) as (nxt & E & Hl & Hne).
  exists nxt. unfold allocate. destruct (Z.eqb_spec (mFreelist a) 0); [done|]. done.
Qed.

(** ** The allocator under a client that plays by the rules *)

Lemma chunk_of_range (a : allocator) (x : Z) :
  64 <= mAlignment_ a <= mPoolSize_ a ->
  mChunksPerPool_ a = mPoolSize_ a / mAlignment_ a ->
  chunk_of a x ->
  exists q, q ∈ mPools_ a /\ q <= x /\ x + mAlignment_ a <= q + mPoolSize_ a.
Proof.
  intros HA Hc (q & i & Hq & Hi & ->). exists q. split; [done|].
  assert (mChunksPerPool_ a * mAlignment_ a <= mPoolSize_ a).
  { rewrite Hc, Z.mul_comm. apply Z.mul_div_le. lia. }
  nia.
Qed.

Lemma fromPools_range (a : allocator) (x q : Z) :
  q ∈ mPools_ a -> q <= x < q + mPoolSize_ a -> fromPools x a = true.
Proof.
  intros Hq Hx. unfold fromPools. apply existsb_exists. exists q.
  split; [by apply list_elem_of_In|].
  destruct (Z.leb_spec q x); [|lia]. destruct (Z.ltb_spec x (q + mPoolSize_ a)); [done|lia].
Qed.

Lemma fresh_spec (a : allocator) (p : Z) :
  fresh a p = true ->
  p = 0 \/ (0 < p /\ forall q, q ∈ mPools_ a ->
                       p + mPoolSize_ a <= q \/ q + mPoolSize_ a <= p).
Proof.
  unfold fresh. intros [H|[H1 H2]%andb_prop]%orb_prop; [left; lia|right].
  split; [lia|]. intros q Hq%list_elem_of_In.
  rewrite forallb_forall in H2. specialize (H2 _ Hq). lia.
Qed.

Lemma valid_deallocate (a : allocator) (live : gset Z) (ptr : Z) :
  valid (a, live) (Deallocate ptr) = true -> ptr = 0 \/ ptr ∈ live.
Proof.
  simpl. intros [H|H]%orb_prop; [left; lia|right]. by apply bool_decide_eq_true in H.
Qed.

Lemma serve_consistent (ndebug : bool) (st : allocator * gset Z) (r : request) :
  consistent st -> valid st r = true ->
  exists p st',
    serve ndebug r st = Some (p, st') /\ consistent st'
    /\ match r with
       | Allocate newPool =>
           (p = 0 /\ newPool = 0 /\ mFreelist (fst st) = 0 /\ st' = st)
           \/ (p <> 0 /\ (p ∉ snd st) /\ snd st' = {[p]} ∪ (snd st))
       | Deallocate ptr => p = 0 /\ snd st' = (snd st) ∖ {[ptr]}
       end.
Proof.
  destruct st as [a live]. intros (HA & Hc & Hpos & Hdis & l & Hch & Hnd & Hfree & Hl & Hlive) Hv.
  destruct r as [np|ptr]; [apply fresh_spec in Hv|apply valid_deallocate in Hv]; simpl in *.
  - destruct l as [|x l].
    + simpl in Hch. unfold allocate. rewrite Hch. cbn [Z.eqb negb].
      destruct Hv as [->|[Hnp Hfr]].
      * unfold allocatePool. simpl. rewrite Hch. simpl.
        eexists _, _. split; [done|]. split; [|by left].
        split_and!; try done; try lia. exists []. by split_and!.
      * destruct (allocatePool_spec np a HA Hc Hch Hnp) as (h & -> & Hcv).
        cbn [mFreelist with_heap with_freelist]. destruct (Z.eqb_spec np 0); [lia|].
        assert (1 <= mChunksPerPool_ a) as H1.
        { rewrite Hc. apply Z.div_le_lower_bound; lia. }
        replace (Z.to_nat (mChunksPerPool_ a)) with (S (Z.to_nat (mChunksPerPool_ a - 1)))
          in Hcv by lia.
        cbn [carve] in Hcv.
        set (a1 := with_heap h (with_freelist np (with_pools (mPools_ a ++ [np]) a))) in *.
        destruct (take_head_chain a1 _ _ Hcv) as (nxt & -> & Hrest & _).
        assert (forall y, chunk_of a y -> y < np \/ np + mPoolSize_ a <= y) as Hold.
        { intros y Hy. destruct (chunk_of_range a y HA Hc Hy) as (q & Hq & H2 & H3).
          destruct (Hfr q Hq); lia. }
        assert (forall y, chunk_of a y -> chunk_of (with_freelist nxt a1) y) as Hmono.
        { intros y (q & i & Hq & Hi & ->). exists q, i. split; [|done].
          simpl. apply elem_of_app. by left. }
        assert (mChunksPerPool_ a * mAlignment_ a <= mPoolSize_ a) as H2.
        { rewrite Hc, Z.mul_comm. apply Z.mul_div_le. lia. }
        assert (np ∉ live) as Hnew.
        { intros Hin. destruct (Hold _ (Hlive _ Hin)); lia. }
        eexists _, _. split; [done|]. destruct (Z.eqb_spec np 0); [lia|].
        split; [|right; by split_and!].
        simpl. split_and!; try done; try lia.
        -- intros q [Hq| ->%list_elem_of_singleton]%elem_of_app; [by apply Hpos|done].
        -- intros q q' [Hq| ->%list_elem_of_singleton]%elem_of_app
             [Hq'| ->%list_elem_of_singleton]%elem_of_app Hne; [by apply Hdis| | |done].
           ++ destruct (Hfr q Hq); lia.
           ++ destruct (Hfr q' Hq'); lia.
        -- exists (carve (Z.to_nat (mChunksPerPool_ a - 1)) (mAlignment_ a) (np + mAlignment_ a)).
           split_and!; [done|apply NoDup_carve; lia| | |].
           ++ intros y (i & Hi & ->)%elem_of_carve [Hy%elem_of_singleton|Hy]%elem_of_union; [nia|].
              destruct (Hold _ (Hlive _ Hy)); nia.
           ++ intros y (i & Hi & ->)%elem_of_carve. exists np, (i + 1).
              split; [apply elem_of_app; right; by apply list_elem_of_singleton|]. simpl. lia.
           ++ intros y [->%elem_of_singleton|Hy]%elem_of_union; [|by apply Hmono, Hlive].
              exists np, 0. split; [apply elem_of_app; right; by apply list_elem_of_singleton|].
              simpl. lia.
    + destruct (allocate_chain np a x l Hch) as (nxt & -> & Hrest).
      simpl in Hch. destruct Hch as (_ & Hx & _).
      apply NoDup_cons in Hnd as [Hxl Hnd].
      eexists _, _. split; [done|]. destruct (Z.eqb_spec x 0); [done|].
      split; [|right; split_and!; [done| |done]; apply Hfree; by left].
      simpl. split_and!; try done; try lia. exists l. split_and!; try done.
      * intros y Hy [->%elem_of_singleton|Hin]%elem_of_union; [done|].
        eapply Hfree; [by right|done].
      * intros y Hy. apply (Hl y). by right.
      * intros y [->%elem_of_singleton|Hy]%elem_of_union; [apply Hl; by left|by apply Hlive].
  - unfold deallocate. destruct (Z.eqb_spec ptr 0) as [->|Hne].
    + eexists _, _. split; [done|]. split; [|done].
      simpl. split_and!; try done; try lia. exists l. split_and!; try done.
      * intros y Hy Hin%elem_of_difference. by eapply Hfree; [|apply Hin].
      * intros y Hin%elem_of_difference. by apply Hlive, Hin.
    + destruct Hv as [->|Hin]; [done|].
      destruct (chunk_of_range a ptr HA Hc (Hlive _ Hin)) as (q & Hq & H2 & H3).
      rewrite (fromPools_range a ptr q) by (done || lia). rewrite andb_false_r.
      eexists _, _. split; [done|]. split; [|done].
      simpl. split_and!; try done; try lia. exists (ptr :: l). split_and!.
      * simpl. split_and!; [done|done|]. exists (mFreelist a).
        split; [apply lookup_insert_eq|]. apply chain_insert; [|done].
        intros Hpl. by apply (Hfree _ Hpl).
      * apply NoDup_cons. split; [|done]. intros Hpl. by apply (Hfree _ Hpl).
      * intros y [->|Hy]%elem_of_cons; [set_solver|].
        intros Hd%elem_of_difference. by eapply Hfree; [|apply Hd].
      * intros y [->|Hy]%elem_of_cons; [by apply Hlive|by apply Hl].
      * intros y Hd%elem_of_difference. by apply Hlive, Hd.
Qed.

Lemma serve_params (ndebug : bool) (r : request) (st st' : allocator * gset Z) (p : Z) :
  serve ndebug r st = Some (p, st') ->
  mPoolSize_ (fst st') = mPoolSize_ (fst st)
  /\ mAlignment_ (fst st') = mAlignment_ (fst st)
  /\ mChunksPerPool_ (fst st') = mChunksPerPool_ (fst st).
Proof.
  destruct st as [a live]. unfold serve, allocate, allocatePool, take_head, deallocate.
  intros H. repeat case_match; simplify_eq/=; done.
Qed.

Lemma serve_all_consistent (ndebug : bool) (rs : list request) : forall st,
  consistent st -> valid_all ndebug rs st = true ->
  exists ps st',
    serve_all ndebug rs st = Some (ps, st') /\ consistent st'
    /\ mPoolSize_ (fst st') = mPoolSize_ (fst st)
    /\ mAlignment_ (fst st') = mAlignment_ (fst st).
Proof.
  induction rs as [|r rs IH]; intros st Hc Hv; simpl in *.
  - by eexists _, _.
  - apply andb_prop in Hv as [Hr Hv].
    destruct (serve_consistent ndebug st r Hc Hr) as (p & st1 & E & Hc1 & _).
    rewrite E in *. destruct (IH st1 Hc1 Hv) as (ps & st2 & -> & Hc2 & E1 & E2).
    destruct (serve_params _ _ _ _ _ E) as (P1 & P2 & _).
    eexists _, _. split; [done|]. split_and!; [done|congruence|congruence].
Qed.

Lemma consistent_apart (a : allocator) (live : gset Z) (x y : Z) :
  consistent (a, live) -> x ∈ live -> y ∈ live -> x <> y ->
  x + mAlignment_ a <= y \/ y + mAlignment_ a <= x.
Proof.
  intros (HA & Hc & Hpos & Hdis & _ & _ & _ & _ & _ & Hlive) Hx Hy Hne.
  assert (mChunksPerPool_ a * mAlignment_ a <= mPoolSize_ a) as H2.
  { rewrite Hc, Z.mul_comm. apply Z.mul_div_le. lia. }
  destruct (Hlive _ Hx) as (q & i & Hq & Hi & ->).
  destruct (Hlive _ Hy) as (q' & j & Hq' & Hj & ->).
  destruct (decide (q = q')) as [->|Hqq].
  - destruct (Z.lt_trichotomy i j) as [Hij|[->|Hij]]; [left|done|right].
    + assert ((i + 1) * mAlignment_ a <= j * mAlignment_ a)
        by (apply Z.mul_le_mono_nonneg_r; lia). lia.
    + assert ((j + 1) * mAlignment_ a <= i * mAlignment_ a)
        by (apply Z.mul_le_mono_nonneg_r; lia). lia.
  - assert ((i + 1) * mAlignment_ a <= mChunksPerPool_ a * mAlignment_ a)
      by (apply Z.mul_le_mono_nonneg_r; lia).
    assert ((j + 1) * mAlignment_ a <= mChunksPerPool_ a * mAlignment_ a)
      by (apply Z.mul_le_mono_nonneg_r; lia).
    assert (0 <= i * mAlignment_ a) by (apply Z.mul_nonneg_nonneg; lia).
    assert (0 <= j * mAlignment_ a) by (apply Z.mul_nonneg_nonneg; lia).
    destruct (Hdis _ _ Hq Hq' Hqq); lia.
Qed.

Lemma PoolAllocator_consistent (sizeofT poolSize : Z) (a0 : allocator) :
  0 <= sizeofT < 2 ^ 64 ->
  PoolAllocator sizeofT poolSize = Some a0 ->
  mAlignment_ a0 <= poolSize ->
  consistent (a0, ∅) /\ mPoolSize_ a0 = poolSize /\ sizeofT <= mAlignment_ a0.
Proof.
  intros Hs. unfold PoolAllocator.
  destruct (nearestPowerOfTwo sizeofT) as [r|] eqn:Er; [|done].
  intros [= <-]. simpl. intros HA.
  assert (sizeofT <= r) as Hr.
  { destruct (nearestPowerOfTwo_cases sizeofT Hs) as [H1 H2].
    destruct (Z_le_gt_dec sizeofT (2 ^ 63)) as [Hle|Hgt].
    - destruct (H1 Hle) as (k & _ & E & Hk & _). congruence.
    - rewrite H2 in Er by lia. done. }
  split_and!; try done; try lia.
  - intros q Hq. by apply elem_of_nil in Hq.
  - intros q q' Hq. by apply elem_of_nil in Hq.
  - exists []. split_and!; try done.
    all: first [constructor | intros x Hx; by apply elem_of_nil in Hx
               | intros x Hx; by apply elem_of_empty in Hx].
Qed.

(** X8. Chunks in use never overlap.  Take an allocator whose pools
    hold at least one chunk, and a client that gives back only what it
    was given and not yet gave back, with [std::aligned_alloc] returning
    blocks that overlap no earlier pool.  Then no call fails; a chunk is
    wide enough for a [T]; every chunk in use lies inside one pool; two
    chunks in use are at least one chunk width apart; and the next
    allocation returns [nullptr] or an address that is not in use. *)
Theorem chunks_in_use_never_overlap (ndebug : bool) (sizeofT poolSize : Z)
    (a0 : allocator) (rs : list request) :
  0 <= sizeofT < 2 ^ 64 ->
  PoolAllocator sizeofT poolSize = Some a0 ->
  mAlignment_ a0 <= poolSize ->
  valid_all ndebug rs (a0, ∅) = true ->
  exists ps a live,
    serve_all ndebug rs (a0, ∅) = Some (ps, (a, live))
    /\ sizeofT <= mAlignment_ a
    /\ (forall x, x ∈ live ->
          exists q, q ∈ mPools_ a /\ 0 < q <= x /\ x + mAlignment_ a <= q + poolSize)
    /\ (forall x y, x ∈ live -> y ∈ live -> x <> y ->
          x + mAlignment_ a <= y \/ y + mAlignment_ a <= x)
    /\ (forall np, fresh a np = true ->
          exists p a', allocate np a = Some (p, a') /\ (p = 0 \/ p ∉ live)).
Proof.
  intros Hs Hctor HA Hv.
  destruct (PoolAllocator_consistent _ _ _ Hs Hctor HA) as (Hc0 & Hsz & Hfit).
  destruct (serve_all_consistent ndebug rs _ Hc0 Hv) as (ps & [a live] & E & Hc & E1 & E2).
  simpl in E1, E2. exists ps, a, live. split_and!; [done|lia| | |].
  - intros x Hx. destruct Hc as (HA' & Hch & Hpos & _ & _ & _ & _ & _ & _ & Hlive).
    destruct (chunk_of_range a x HA' Hch (Hlive _ Hx)) as (q & Hq & H1 & H2).
    exists q. specialize (Hpos _ Hq). split_and!; [done|lia|lia|lia].
  - intros x y. by apply consistent_apart.
  - intros np Hnp.
    destruct (serve_consistent ndebug (a, live) (Allocate np) Hc Hnp) as (p & [a' live'] & Es & _ & Hp).
    simpl in Es. destruct (allocate np a) as [[p' a'']|]; [|done]. simplify_eq.
    exists p, a'. split; [done|]. destruct Hp as [(-> & _)|(_ & Hp & _)]; [by left|by right].
Qed.

Lemma chunks_in_use_never_overlap_witness :
  exists ps a live,
    serve_all false [Allocate 4096; Allocate 0; Deallocate 4096; Deallocate 4160;
                     Allocate 0; Allocate 0]
      (Allocator 4096 64 64 [] 0 ∅, ∅) = Some (ps, (a, live))
    /\ 16 <= mAlignment_ a
    /\ (forall x, x ∈ live ->
          exists q, q ∈ mPools_ a /\ 0 < q <= x /\ x + mAlignment_ a <= q + 4096)
    /\ (forall x y, x ∈ live -> y ∈ live -> x <> y ->
          x + mAlignment_ a <= y \/ y + mAlignment_ a <= x)
    /\ (forall np, fresh a np = true ->
          exists p a', allocate np a = Some (p, a') /\ (p = 0 \/ p ∉ live)).
Proof.
  apply (chunks_in_use_never_overlap false 16 4096); [lia|reflexivity|simpl; lia|].
  vm_compute. reflexivity.
Defined.

(** X9. The chunk freed last is the chunk allocated next: giving a chunk
    back and allocating again returns the same address without asking
    for memory, and leaves the free list, the pools and the set of chunks
    in use as they were before the two calls. *)
Theorem freed_chunk_is_reused_first (ndebug : bool) (a : allocator) (live : gset Z)
    (ptr np : Z) :
  consistent (a, live) -> ptr ∈ live ->
  exists a1 a2 l,
    serve ndebug (Deallocate ptr) (a, live) = Some (0, (a1, live ∖ {[ptr]}))
    /\ serve ndebug (Allocate np) (a1, live ∖ {[ptr]}) = Some (ptr, (a2, live))
    /\ mFreelist a2 = mFreelist a /\ mPools_ a2 = mPools_ a
    /\ chain (heap a) (mFreelist a) l /\ chain (heap a2) (mFreelist a2) l
    /\ consistent (a2, live).
Proof.
  intros Hc Hin.
  pose proof Hc as (HA & Hch & Hpos & Hdis & l & Hl & Hnd & Hfree & Hlc & Hlive).
  destruct (chunk_of_range a ptr HA Hch (Hlive _ Hin)) as (q & Hq & H1 & H2).
  assert (ptr <> 0) as Hne by (specialize (Hpos _ Hq); lia).
  assert (ptr ∉ l) as Hnl by (intros Hpl; by apply (Hfree _ Hpl)).
  assert ({[ptr]} ∪ live ∖ {[ptr]} = live) as Hset.
  { apply set_eq. intros x. destruct (decide (x = ptr)); set_solver. }
  exists (with_freelist ptr (with_heap (<[ptr := mFreelist a]> (heap a)) a)),
         (with_heap (<[ptr := mFreelist a]> (heap a)) a), l.
  assert (chain (<[ptr := mFreelist a]> (heap a)) (mFreelist a) l) as Hl'
    by by apply chain_insert.
  split_and!; try done.
  - simpl. unfold deallocate. destruct (Z.eqb_spec ptr 0); [done|].
    by rewrite (fromPools_range a ptr q), andb_false_r by (done || lia).
  - simpl. unfold allocate, take_head. simpl. destruct (Z.eqb_spec ptr 0); [done|]. simpl.
    rewrite lookup_insert_eq. destruct (Z.eqb_spec ptr 0); [done|]. by rewrite Hset.
  - simpl. split_and!; try done; try lia. exists l. split_and!; try done.
Qed.

Lemma freed_chunk_is_reused_first_witness :
  exists a1 a2 l,
    serve false (Deallocate 4096) (Allocator 64 64 1 [4096] 0 ∅, {[4096]})
      = Some (0, (a1, {[4096]} ∖ {[4096]}))
    /\ serve false (Allocate 0) (a1, {[4096]} ∖ {[4096]}) = Some (4096, (a2, {[4096]}))
    /\ mFreelist a2 = 0 /\ mPools_ a2 = [4096]
    /\ chain ∅ 0 l /\ chain (heap a2) (mFreelist a2) l
    /\ consistent (a2, {[4096]}).
Proof.
  apply (freed_chunk_is_reused_first false (Allocator 64 64 1 [4096] 0 ∅) {[4096]} 4096 0);
    [|set_solver].
  simpl. split_and!; try done; try lia.
  - intros q ->%list_elem_of_singleton. lia.
  - intros q q' ->%list_elem_of_singleton ->%list_elem_of_singleton. done.
  - exists []. split_and!; try done.
    + constructor.
    + intros x Hx. by apply elem_of_nil in Hx.
    + intros x Hx. by apply elem_of_nil in Hx.
    + intros x ->%elem_of_singleton. exists 4096, 0.
      split; [by apply list_elem_of_singleton|simpl; lia].
Defined.

Lemma serve_all_loop (ndebug : bool) (a : allocator) (ptr : Z) (nps : list Z) :
  ptr <> 0 -> mFreelist a = ptr -> heap a !! ptr = Some ptr ->
  forall live, exists live',
    serve_all ndebug (map Allocate nps) (a, live)
    = Some (repeat ptr (length nps), (a, live')).
Proof.
  intros Hne Hf Hh. induction nps as [|np nps IH]; intros live; simpl.
  - by eexists.
  - unfold allocate, take_head. rewrite Hf. destruct (Z.eqb_spec ptr 0); [done|]. simpl.
    rewrite Hh. replace (with_freelist ptr a) with a by (unfold with_freelist; destruct a; simpl in *; congruence).
    destruct (IH (if ptr =? 0 then live else {[ptr]} ∪ live)) as [live' ->]. by eexists.
Qed.

Lemma deallocate_ok (ndebug : bool) (a : allocator) (ptr : Z) :
  ptr <> 0 -> (ndebug = false -> fromPools ptr a = true) ->
  deallocate ndebug ptr a
  = Some (with_freelist ptr (with_heap (<[ptr := mFreelist a]> (heap a)) a)).
Proof.
  intros Hne Hdbg. unfold deallocate. destruct (Z.eqb_spec ptr 0); [done|].
  destruct ndebug; [done|]. by rewrite Hdbg.
Qed.

(** X10. A chunk given back twice is handed out over and over.  The
    second [deallocate] of an address is not noticed (the debug check
    only asks whether the address lies in a pool); it makes the chunk its
    own successor, so that every later allocation returns this one
    address, whatever was on the free list before. *)
Theorem double_free_is_handed_out_forever (ndebug : bool) (a : allocator)
    (live : gset Z) (ptr : Z) (nps : list Z) :
  ptr <> 0 ->
  (ndebug = false -> fromPools ptr a = true) ->
  exists st,
    serve_all ndebug (Deallocate ptr :: Deallocate ptr :: map Allocate nps) (a, live)
    = Some (0 :: 0 :: repeat ptr (length nps), st)
    /\ mFreelist (fst st) = ptr /\ heap (fst st) !! ptr = Some ptr.
Proof.
  intros Hne Hdbg.
  set (a1 := with_freelist ptr (with_heap (<[ptr := mFreelist a]> (heap a)) a)).
  set (a2 := with_freelist ptr (with_heap (<[ptr := mFreelist a1]> (heap a1)) a1)).
  destruct (serve_all_loop ndebug a2 ptr nps Hne eq_refl (lookup_insert_eq (heap a1) ptr ptr)
              (live ∖ {[ptr]} ∖ {[ptr]})) as [live' E].
  exists (a2, live'). split; [|split; [done|apply (lookup_insert_eq (heap a1) ptr ptr)]].
  cbn [serve_all map]. unfold serve at 1.
  rewrite (deallocate_ok ndebug a ptr Hne Hdbg). fold a1. unfold serve at 1.
  rewrite (deallocate_ok ndebug a1 ptr Hne Hdbg). fold a2. by rewrite E.
Qed.

Lemma double_free_is_handed_out_forever_witness :
  exists st,
    serve_all false [Deallocate 4096; Deallocate 4096; Allocate 0; Allocate 0; Allocate 0]
      (Allocator 4096 64 64 [4096] 4160 ∅, {[4096]})
    = Some ([0; 0; 4096; 4096; 4096], st)
    /\ mFreelist (fst st) = 4096 /\ heap (fst st) !! 4096 = Some 4096.
Proof.
  apply (double_free_is_handed_out_forever false (Allocator 4096 64 64 [4096] 4160 ∅)
           {[4096]} 4096 [0; 0; 0]); [lia|reflexivity].
Defined.

Lemma serve_all_chain (ndebug : bool) (l : list Z) : forall (a : allocator) live nps,
  chain (heap a) (mFreelist a) l -> length nps = length l ->
  exists live',
    serve_all ndebug (map Allocate nps) (a, live) = Some (l, (with_freelist 0 a, live')).
Proof.
  induction l as [|x l IH]; intros a live nps Hc Hn.
  - destruct nps; [|done]. simpl in *. exists live.
    replace (with_freelist 0 a) with a by (unfold with_freelist; destruct a; simpl in *; congruence). done.
  - destruct nps as [|np nps]; [done|]. simpl in Hn.
    destruct (allocate_chain np a x l Hc) as (nxt & E & Hl).
    cbn [map serve_all serve]. rewrite E.
    destruct (IH (with_freelist nxt a) (if x =? 0 then live else {[x]} ∪ live) nps Hl
                ltac:(lia)) as [live' ->].
    by exists live'.
Qed.

(** X11. A pool is handed out chunk by chunk, lowest address first.
    With an empty free list an allocation takes the block
    [std::aligned_alloc] returns, and this and the next
    [mChunksPerPool_ - 1] allocations return the addresses of the chunks
    of this block in ascending order, [mAlignment_] apart, without asking
    for memory again; after that the free list is empty again.  If
    [std::aligned_alloc] fails the allocation returns [nullptr] and
    leaves the allocator as it was. *)
Theorem pool_is_handed_out_in_order (ndebug : bool) (a : allocator) (live : gset Z)
    (p : Z) (nps : list Z) :
  64 <= mAlignment_ a <= mPoolSize_ a ->
  mChunksPerPool_ a = mPoolSize_ a / mAlignment_ a ->
  mFreelist a = 0 ->
  0 < p ->
  Z.of_nat (length nps) = mChunksPerPool_ a - 1 ->
  (exists a' live',
     serve_all ndebug (map Allocate (p :: nps)) (a, live)
     = Some (carve (Z.to_nat (mChunksPerPool_ a)) (mAlignment_ a) p, (a', live'))
     /\ mFreelist a' = 0 /\ mPools_ a' = mPools_ a ++ [p])
  /\ allocate 0 a = Some (0, a).
Proof.
  intros HA Hc Hf Hp Hn. split.
  - destruct (allocatePool_spec p a HA Hc Hf Hp) as (h & E & Hch).
    replace (Z.to_nat (mChunksPerPool_ a)) with (S (length nps)) in * by lia.
    cbn [carve] in *.
    set (a1 := with_heap h (with_freelist p (with_pools (mPools_ a ++ [p]) a))) in *.
    destruct (take_head_chain a1 _ _ Hch) as (nxt & Et & Hrest & _).
    cbn [map serve_all serve]. unfold allocate. rewrite Hf, E. simpl.
    destruct (Z.eqb_spec p 0); [lia|]. fold a1. rewrite Et.
    destruct (serve_all_chain ndebug _ (with_freelist nxt a1)
                (if p =? 0 then live else {[p]} ∪ live) nps Hrest)
      as [live' ->].
    { clear. generalize (p + mAlignment_ a). induction nps as [|? ? IH]; intros c; simpl; [done|].
      by rewrite <- IH. }
    by eexists _, _.
  - unfold allocate, allocatePool. rewrite Hf. simpl. by rewrite Hf.
Qed.

Lemma pool_is_handed_out_in_order_witness :
  exists a' live',
    serve_all false (map Allocate [4096; 0; 0; 0]) (Allocator 256 64 4 [] 0 ∅, ∅)
    = Some ([4096; 4160; 4224; 4288], (a', live'))
    /\ mFreelist a' = 0 /\ mPools_ a' = [4096].
Proof.
  apply (pool_is_handed_out_in_order false (Allocator 256 64 4 [] 0 ∅) ∅ 4096 [0; 0; 0]);
    simpl; try done; lia.
Defined.

End PoolAllocator.

(** * Two pipelines (static and dynamic dispatch)

    The same three processing units, a shift to the right by one, a
    doubling and a store, chained once through pointers to an abstract
    base class and once through template inheritance.  [std::int64_t] is
    an integer between -2^63 and 2^63 - 1; an arithmetic overflow is
    undefined and ends the call with [None]; [>>] on a negative operand
    is the arithmetic shift.  A [m_result] that was never written holds
    an indeterminate value, [None]. *)

Module Pipeline.
Local Open Scope Z_scope.

Definition int64 (x : Z) : bool := (- 2 ^ 63 <=? x) && (x <? 2 ^ 63).

(** [x * 2] *)
Definition times2 (x : Z) : option Z :=
  if int64 (x * 2) then Some (x * 2) else None.

(** [x >> 1] *)
Definition shr1 (x : Z) : Z := Z.shiftr x 1.

(** ** namespace runtime: virtual dispatch along [m_next] *)
Module runtime.

Inductive Unit :=
| Store (m_result : option Z)
| Doubler (m_next : Unit)
| ShiftRighter (m_next : Unit).

Fixpoint process (x : Z) (u : Unit) : option Unit :=
  match u with
  | Store _ => Some (Store (Some x))
  | Doubler next =>
      match times2 x with
      | Some y => Doubler <$> process y next
      | None => None
      end
  | ShiftRighter next => ShiftRighter <$> process (shr1 x) next
  end.

Fixpoint result (u : Unit) : option Z :=
  match u with
  | Store r => r
  | Doubler next | ShiftRighter next => result next
  end.

(** [storage], seen through [pipeline = &storage.shiftRighter]; an
    object of static storage duration starts out zeroed. *)
Definition storage : Unit := ShiftRighter (Doubler (Store (Some 0))).

Definition usePipeline : option Z :=
  match process 42 storage with
  | Some u => result u
  | None => None
  end.

End runtime.

(** ** namespace compiletime: the chain is a type *)
Module compiletime.

Class Unit (S : Type) := {
  process : Z -> S -> option S;
  result : S -> option Z
}.

Record Store := { m_result : option Z }.
Record Doubler (Next : Type) := { Doubler_base : Next }.
Record ShiftRighter (Next : Type) := { ShiftRighter_base : Next }.
Arguments Build_Doubler {Next} _.
Arguments Doubler_base {Next} _.
Arguments Build_ShiftRighter {Next} _.
Arguments ShiftRighter_base {Next} _.

#[global] Instance Store_Unit : Unit Store := {|
  process x _ := Some {| m_result := Some x |};
  result s := m_result s
|}.

#[global] Instance Doubler_Unit (Next : Type) `{Unit Next} : Unit (Doubler Next) := {|
  process x d :=
    match times2 x with
    | Some y => Build_Doubler <$> process y (Doubler_base d)
    | None => None
    end;
  result d := result (Doubler_base d)
|}.

#[global] Instance ShiftRighter_Unit (Next : Type) `{Unit Next} : Unit (ShiftRighter Next) := {|
  process x s := Build_ShiftRighter <$> process (shr1 x) (ShiftRighter_base s);
  result s := result (ShiftRighter_base s)
|}.

Definition Pipeline : Type := ShiftRighter (Doubler Store).

(** A local [Pipeline pipeline;] is not initialised. *)
Definition usePipeline : option Z :=
  let pipeline : Pipeline := Build_ShiftRighter (Build_Doubler {| m_result := None |}) in
  match process 42 pipeline with
  | Some p => result p
  | None => None
  end.

End compiletime.

Lemma shr1_div2 (x : Z) : shr1 x = x / 2.
Proof. unfold shr1. by rewrite Z.shiftr_div_pow2 by lia. Qed.

Lemma shr1_times2 (x : Z) :
  int64 x = true -> times2 (shr1 x) = Some (2 * (x / 2)).
Proof.
  intros [H1 H2]%andb_prop. rewrite shr1_div2. unfold times2.
  pose proof (Z.div_mod x 2 ltac:(lia)). pose proof (Z.mod_pos_bound x 2 ltac:(lia)).
  assert (int64 (x / 2 * 2) = true) as ->.
  { apply andb_true_intro. split; lia. }
  f_equal. lia.
Qed.

(** X12. Both pipelines clear the lowest bit of their input and agree
    on every [std::int64_t]: whatever the store held before, processing
    [x] never overflows and leaves [2 * (x / 2)] (rounding down, which is
    [x] with bit 0 cleared) as the result of the run-time chain and of
    the compile-time chain. *)
Theorem pipelines_agree (x : Z) (r0 : option Z) :
  int64 x = true ->
  (exists u,
     runtime.process x (runtime.ShiftRighter (runtime.Doubler (runtime.Store r0))) = Some u
     /\ runtime.result u = Some (2 * (x / 2)))
  /\ (exists p : compiletime.Pipeline,
        compiletime.process x
          (compiletime.Build_ShiftRighter
             (compiletime.Build_Doubler {| compiletime.m_result := r0 |})) = Some p
        /\ compiletime.result p = Some (2 * (x / 2)))
  /\ 2 * (x / 2) = Z.land x (-2)
  /\ 2 * (x / 2) = x - x mod 2.
Proof.
  intros Hx. pose proof (shr1_times2 x Hx) as E. split_and!.
  - simpl. rewrite E. simpl. by eexists.
  - simpl. rewrite E. simpl. by eexists.
  - change (-2) with (Z.lnot 1). rewrite <- Z.ldiff_land.
    change (Z.ldiff x 1) with (Z.ldiff x (Z.ones 1)). rewrite Z.ldiff_ones_r by lia.
    rewrite Z.shiftr_div_pow2, Z.shiftl_mul_pow2 by lia. change (2 ^ 1) with 2. lia.
  - pose proof (Z.div_mod x 2 ltac:(lia)). lia.
Qed.

Lemma pipelines_agree_witness :
  runtime.usePipeline = Some 42 /\ compiletime.usePipeline = Some 42.
Proof.
  destruct (pipelines_agree 42 (Some 0) eq_refl) as ((u & Eu & Ru) & _).
  destruct (pipelines_agree 42 None eq_refl) as (_ & (p & Ep & Rp) & _).
  split.
  - exact (eq_trans (f_equal (fun o => match o with
                                       | Some u => runtime.result u
                                       | None => None
                                       end) Eu) Ru).
  - exact (eq_trans (f_equal (fun o => match o with
                                       | Some p => compiletime.result p
                                       | None => None
                                       end) Ep) Rp).
Defined.

End Pipeline.

(** * Vector (ecx::stl::Vector)

    A buffer of [capacity_] cells of which the first [size_] hold live
    objects.  A cell is [Some x] while an object with value [x] lives in
    it and [None] while it is raw storage.  [data_] is [None] for
    [nullptr].  [std::size_t] is an integer modulo 2^64.  Every function
    returns, next to the vector it leaves behind, the constructor and
    destructor calls it made on elements, in order: these are what the
    counters of [LifetimeTracker] count.  Constructing outside the
    buffer, and destroying or reading a cell that holds no object, is
    undefined and ends the call with [None]; [operator new] does not
    fail. *)

Module Vector.
Local Open Scope Z_scope.

(** The special member functions [LifetimeTracker] counts. *)
Inductive lifetime :=
| Constructed
| CopyConstructed
| MoveConstructed
| Destroyed.

#[global] Instance lifetime_eq_dec : EqDecision lifetime.
Proof. solve_decision. Defined.




Section Vector.
Context {T : Type}.

(** The value a default-constructed [T] holds. *)
Variable default : T.

Record vector := Vec {
  size_ : Z;
  capacity_ : Z;
  data_ : option (list (option T))
}.

(** [allocate(n)], lines 302-304: raw storage for [n] objects. *)
Definition allocate (n : Z) : list (option T) := repeat None (Z.to_nat n).


(** Constructs [k] objects with value [x] in the cells from index [i] on
    ([std::uninitialized_default_construct_n], [std::uninitialized_fill_n]). *)
Fixpoint construct_n (x : T) (i k : nat) (cells : list (option T))
  : option (list (option T)) :=
  match k with
  | O => Some cells
  | S k' =>
      if (i <? length cells)%nat
      then construct_n x (S i) k' (<[i := Some x]> cells)
      else None
  end.

(** Destroys the [k] objects in the cells from index [i] on
    ([std::destroy_n], [std::destroy]). *)
Fixpoint destroy_n (i k : nat) (cells : list (option T)) : option (list (option T)) :=
  match k with
  | O => Some cells
  | S k' =>
      match cells !! i with
      | Some (Some _) => destroy_n (S i) k' (<[i := None]> cells)
      | _ => None
      end
  end.


(** [Vector(n)], lines 109-111. *)
Definition Vector_n (n : Z) : option (vector * list lifetime) :=
  match construct_n default 0 (Z.to_nat n) (allocate n) with
  | Some cells => Some (Vec n n (Some cells), repeat Constructed (Z.to_nat n))
  | None => None
  end.







(** [operator[]], line 297. *)
Definition at_index (i : Z) (v : vector) : option T :=
  match data_ v with
  | Some cells =>
      match cells !! Z.to_nat i with
      | Some (Some x) => Some x
      | _ => None
      end
  | None => None
  end.

(** [~Vector], lines 156-159. *)
Definition destroy (v : vector) : option (list lifetime) :=
  match data_ v with
  | Some cells =>
      match destroy_n 0 (Z.to_nat (size_ v)) cells with
      | Some _ => Some (repeat Destroyed (Z.to_nat (size_ v)))
      | None => None
      end
  | None => if size_ v =? 0 then Some [] else None
  end.

(** Calls a client makes on one vector. *)
Inductive call :=
| PushBack (elem : T)
| PopBack
| Resize (newSize : Z)
| Reserve (newCapacity : Z).




(** The representation invariant: [size_] live objects at the front of
    [capacity_] cells. *)
Definition represents (v : vector) (els : list T) : Prop :=
  size_ v = Z.of_nat (length els)
  /\ size_ v <= capacity_ v < 2 ^ 64
  /\ match data_ v with
     | Some cells =>
         cells = map Some els ++ repeat None (Z.to_nat (capacity_ v - size_ v))
     | None => capacity_ v = 0
     end.


End Vector.

Section Vector_facts.
Context {T : Type}.
Variable default : T.
Implicit Types (v : @vector T) (els : list T) (cells pre : list (option T)).







Lemma represents_size v els : represents v els -> 0 <= size_ v.
Proof. intros (Hs & _). lia. Qed.


























End Vector_facts.





End Vector.

(** * UniquePointer (src/stl/UniquePointer.hpp)

    Both versions of the class, [v1] with the deleter as a member and
    [v2] with the deleter as an empty base.  A raw pointer is an integer
    that names the allocation it points to, [nullptr] is 0.  A deleter is
    known by which calls of it end in an exception.  A member function
    returns the object it leaves behind, the pointers it passed to the
    deleter, in order, and whether an exception left it.  Objects live in
    a store keyed by their address, so that [this == &other] is a
    comparison of keys. *)

Module UniquePointer.
Local Open Scope Z_scope.

Inductive version := v1 | v2.

Record UniquePointer := UP {
  ptr_ : Z;
  deleter_ : Z -> bool   (* does [deleter_(p)] throw? *)
}.

Record outcome := Outcome {
  object : UniquePointer;
  deleted : list Z;
  thrown : bool
}.

(** [reset], lines 42-48 of v1 and lines 105-113 of v2. *)
Definition reset (ver : version) (p : Z) (u : UniquePointer) : outcome :=
  match ver with
  | v1 =>
      if ptr_ u =? 0 then Outcome (UP p (deleter_ u)) [] false
      else if deleter_ u (ptr_ u) then Outcome u [ptr_ u] true
      else Outcome (UP p (deleter_ u)) [ptr_ u] false
  | v2 =>
      let temp := ptr_ u in
      let u' := UP p (deleter_ u) in
      if temp =? 0 then Outcome u' [] false
      else Outcome u' [temp] (deleter_ u temp)
  end.

(** [release], lines 50 and 115: the pointer and the object left behind. *)
Definition release (u : UniquePointer) : Z * UniquePointer :=
  (ptr_ u, UP 0 (deleter_ u)).

(** [get] and [operator bool]. *)
Definition get (u : UniquePointer) : Z := ptr_ u.
Definition to_bool (u : UniquePointer) : bool := negb (ptr_ u =? 0).

(** The move constructor, lines 21-23 and 89-90: the new object and
    what is left of [other]. *)
Definition move_construct (other : UniquePointer) : UniquePointer * UniquePointer :=
  (UP (ptr_ other) (deleter_ other), UP 0 (deleter_ other)).

(** Move assignment between two different objects, lines 32-33 and
    98-99: [reset(other.release())], then the deleter is taken over. *)
Definition move_assign (ver : version) (this other : UniquePointer)
  : outcome * UniquePointer :=
  let '(p, other') := release other in
  let o := reset ver p this in
  if thrown o then (o, other')
  else (Outcome (UP (ptr_ (object o)) (deleter_ other')) (deleted o) false, other').

(** The destructor, lines 37-40 and 103. *)
Definition destroy (ver : version) (u : UniquePointer) : outcome := reset ver 0 u.

(** What a pointer that leaves an object contributes to the log. *)
Definition dropped (p : Z) : list Z := if p =? 0 then [] else [p].

(** ** A program that uses unique pointers *)

(** The objects alive, the pointers passed to a deleter so far, and two
    sets kept for the record: the pointers ever handed to an object and
    the pointers handed back by [release]. *)
Record world := World {
  objects : gmap nat UniquePointer;
  log : list Z;
  adopted : gset Z;
  released : gset Z
}.

Inductive op :=
| Construct (i : nat) (p : Z) (d : Z -> bool)
| MoveConstruct (i j : nat)
| MoveAssign (i j : nat)
| Reset (i : nat) (p : Z)
| Release (i : nat)
| Destroy (i : nat).

Definition adopt (p : Z) (s : gset Z) : gset Z := if p =? 0 then s else {[p]} ∪ s.

(** One statement of the program; [None] when it names an object that
    does not exist, constructs one where one lives, or ends in an
    exception. *)
Definition step (ver : version) (o : op) (w : world) : option world :=
  match o with
  | Construct i p d =>
      match objects w !! i with
      | None => Some (World (<[i := UP p d]> (objects w)) (log w)
                            (adopt p (adopted w)) (released w))
      | Some _ => None
      end
  | MoveConstruct i j =>
      match objects w !! i, objects w !! j with
      | None, Some other =>
          let '(new, other') := move_construct other in
          Some (World (<[i := new]> (<[j := other']> (objects w))) (log w)
                      (adopted w) (released w))
      | _, _ => None
      end
  | MoveAssign i j =>
      match objects w !! i, objects w !! j with
      | Some this, Some other =>
          if decide (i = j) then Some w
          else
            let '(r, other') := move_assign ver this other in
            if thrown r then None
            else Some (World (<[i := object r]> (<[j := other']> (objects w)))
                             (log w ++ deleted r) (adopted w) (released w))
      | _, _ => None
      end
  | Reset i p =>
      match objects w !! i with
      | Some u =>
          let r := reset ver p u in
          if thrown r then None
          else Some (World (<[i := object r]> (objects w)) (log w ++ deleted r)
                           (adopt p (adopted w)) (released w))
      | None => None
      end
  | Release i =>
      match objects w !! i with
      | Some u =>
          let '(p, u') := release u in
          Some (World (<[i := u']> (objects w)) (log w) (adopted w)
                      (adopt p (released w)))
      | None => None
      end
  | Destroy i =>
      match objects w !! i with
      | Some u =>
          let r := destroy ver u in
          if thrown r then None
          else Some (World (delete i (objects w)) (log w ++ deleted r)
                           (adopted w) (released w))
      | None => None
      end
  end.

Fixpoint run (ver : version) (os : list op) (w : world) : option world :=
  match os with
  | [] => Some w
  | o :: os' =>
      match step ver o w with
      | Some w' => run ver os' w'
      | None => None
      end
  end.

Definition start : world := World ∅ [] ∅ ∅.

(** A raw pointer is handed to an object once, and deleters return. *)
Definition proper (w : world) (o : op) : Prop :=
  match o with
  | Construct _ p d => (p = 0 \/ ~ p ∈ adopted w) /\ forall q, d q = false
  | Reset _ p => p = 0 \/ ~ p ∈ adopted w
  | _ => True
  end.

Fixpoint proper_all (ver : version) (os : list op) (w : world) : Prop :=
  match os with
  | [] => True
  | o :: os' =>
      proper w o
      /\ match step ver o w with
         | Some w' => proper_all ver os' w'
         | None => True
         end
  end.

(** Object [i] holds the pointer [q]. *)
Definition owns (objs : gmap nat UniquePointer) (i : nat) (q : Z) : Prop :=
  exists u, objs !! i = Some u /\ ptr_ u = q /\ q <> 0.

(** Ownership is unique and accounted for. *)
Definition sound (w : world) : Prop :=
  (forall i j q, owns (objects w) i q -> owns (objects w) j q -> i = j)
  /\ (forall i q, owns (objects w) i q ->
        q ∈ adopted w /\ ~ q ∈ log w /\ ~ q ∈ released w)
  /\ NoDup (log w)
  /\ (forall q, q ∈ log w -> q ∈ adopted w /\ ~ q ∈ released w)
  /\ (forall q, q ∈ released w -> q ∈ adopted w)
  /\ (forall q, q ∈ adopted w ->
        q <> 0 /\ (q ∈ log w \/ q ∈ released w \/ exists i, owns (objects w) i q))
  /\ (forall i u q, objects w !! i = Some u -> deleter_ u q = false).

(** ** One object *)

Lemma reset_returns (ver : version) (p : Z) (u : UniquePointer) :
  deleter_ u (ptr_ u) = false ->
  reset ver p u = Outcome (UP p (deleter_ u)) (dropped (ptr_ u)) false.
Proof.
  intros Hd. unfold reset, dropped. destruct ver; rewrite ?Hd; by destruct (ptr_ u =? 0).
Qed.

Lemma move_assign_returns (ver : version) (this other : UniquePointer) :
  deleter_ this (ptr_ this) = false ->
  move_assign ver this other
  = (Outcome (UP (ptr_ other) (deleter_ other)) (dropped (ptr_ this)) false,
     UP 0 (deleter_ other)).
Proof. intros Hd. unfold move_assign, release. by rewrite reset_returns. Qed.

(** X17. The two versions of [reset] differ only when the deleter
    throws.  If the deleter returns they leave the same object, which
    holds the new pointer, and pass the old pointer, if there was one, to
    the deleter once.  If the deleter throws, [v2] holds the new pointer,
    whereas [v1] still holds the old one and has lost the new one: its
    destructor passes the old pointer to the deleter a second time, and
    the new pointer never. *)
Theorem reset_versions (p : Z) (u : UniquePointer) :
  (ptr_ u = 0 \/ deleter_ u (ptr_ u) = false ->
     reset v1 p u = reset v2 p u
     /\ reset v2 p u = Outcome (UP p (deleter_ u)) (dropped (ptr_ u)) false)
  /\ (ptr_ u <> 0 -> deleter_ u (ptr_ u) = true ->
        reset v1 p u = Outcome u [ptr_ u] true
        /\ reset v2 p u = Outcome (UP p (deleter_ u)) [ptr_ u] true
        /\ deleted (destroy v1 (object (reset v1 p u))) = [ptr_ u]
        /\ deleted (destroy v2 (object (reset v2 p u))) = dropped p).
Proof.
  split.
  - intros [H0|Hd].
    + unfold reset, dropped. rewrite H0. simpl. done.
    + by rewrite !reset_returns.
  - intros H0 Hd. unfold destroy, reset, dropped. simpl.
    destruct (Z.eqb_spec (ptr_ u) 0); [done|]. rewrite Hd. simpl.
    destruct (Z.eqb_spec (ptr_ u) 0); [done|]. rewrite Hd.
    split_and!; try done. by destruct (p =? 0).
Qed.

Lemma reset_versions_witness :
  reset v1 7 (UP 3 (fun _ => true)) = Outcome (UP 3 (fun _ => true)) [3] true
  /\ reset v2 7 (UP 3 (fun _ => true)) = Outcome (UP 7 (fun _ => true)) [3] true
  /\ deleted (destroy v1 (object (reset v1 7 (UP 3 (fun _ => true))))) = [3]
  /\ deleted (destroy v2 (object (reset v2 7 (UP 3 (fun _ => true))))) = dropped 7.
Proof.
  apply (proj2 (reset_versions 7 (UP 3 (fun _ => true)))); [simpl; lia | reflexivity].
Defined.

(** ** Many objects *)

Lemma owns_insert (objs : gmap nat UniquePointer) (i k : nat) (u : UniquePointer) (q : Z) :
  owns (<[i := u]> objs) k q
  <-> (k = i /\ ptr_ u = q /\ q <> 0) \/ (k <> i /\ owns objs k q).
Proof.
  unfold owns. destruct (decide (k = i)) as [->|Hne].
  - rewrite lookup_insert_eq. naive_solver.
  - rewrite lookup_insert_ne by done. naive_solver.
Qed.

Lemma owns_delete (objs : gmap nat UniquePointer) (i k : nat) (q : Z) :
  owns (delete i objs) k q <-> k <> i /\ owns objs k q.
Proof.
  unfold owns. destruct (decide (k = i)) as [->|Hne].
  - rewrite lookup_delete_eq. naive_solver.
  - rewrite lookup_delete_ne by done. naive_solver.
Qed.

Lemma owns_lookup (objs : gmap nat UniquePointer) (i : nat) (u : UniquePointer) :
  objs !! i = Some u -> ptr_ u <> 0 -> owns objs i (ptr_ u).
Proof. intros. by exists u. Qed.

Lemma elem_of_adopt (p q : Z) (s : gset Z) :
  q ∈ adopt p s <-> (q = p /\ p <> 0) \/ q ∈ s.
Proof.
  unfold adopt. destruct (Z.eqb_spec p 0); [naive_solver|].
  rewrite elem_of_union, elem_of_singleton. naive_solver.
Qed.

Lemma elem_of_dropped (p q : Z) : q ∈ dropped p <-> q = p /\ p <> 0.
Proof.
  unfold dropped. destruct (Z.eqb_spec p 0).
  - rewrite elem_of_nil. naive_solver.
  - rewrite list_elem_of_singleton. naive_solver.
Qed.

Lemma NoDup_dropped (l : list Z) (p : Z) :
  NoDup l -> (p <> 0 -> ~ p ∈ l) -> NoDup (l ++ dropped p).
Proof.
  intros Hl Hp. unfold dropped. destruct (Z.eqb_spec p 0); [by rewrite app_nil_r|].
  apply NoDup_app. split_and!; [done| |apply NoDup_singleton].
  intros x Hx ->%list_elem_of_singleton. by apply Hp.
Qed.

Lemma lookup_insert_cases (objs : gmap nat UniquePointer) (i k : nat) (u u' : UniquePointer) :
  <[i := u]> objs !! k = Some u' -> (k = i /\ u' = u) \/ (k <> i /\ objs !! k = Some u').
Proof. rewrite lookup_insert_Some. naive_solver. Qed.

(** What a statement does when no deleter throws. *)
Lemma step_returns (ver : version) (o : op) (w w' : world) :
  (forall i u q, objects w !! i = Some u -> deleter_ u q = false) ->
  step ver o w = Some w' ->
  match o with
  | Construct i p d =>
      objects w !! i = None
      /\ w' = World (<[i := UP p d]> (objects w)) (log w) (adopt p (adopted w)) (released w)
  | MoveConstruct i j =>
      exists other, objects w !! i = None /\ objects w !! j = Some other
        /\ w' = World (<[i := UP (ptr_ other) (deleter_ other)]>
                         (<[j := UP 0 (deleter_ other)]> (objects w)))
                      (log w) (adopted w) (released w)
  | MoveAssign i j =>
      exists this other, objects w !! i = Some this /\ objects w !! j = Some other
        /\ ((i = j /\ w' = w)
            \/ (i <> j
                /\ w' = World (<[i := UP (ptr_ other) (deleter_ other)]>
                                 (<[j := UP 0 (deleter_ other)]> (objects w)))
                              (log w ++ dropped (ptr_ this)) (adopted w) (released w)))
  | Reset i p =>
      exists u, objects w !! i = Some u
        /\ w' = World (<[i := UP p (deleter_ u)]> (objects w))
                      (log w ++ dropped (ptr_ u)) (adopt p (adopted w)) (released w)
  | Release i =>
      exists u, objects w !! i = Some u
        /\ w' = World (<[i := UP 0 (deleter_ u)]> (objects w)) (log w) (adopted w)
                      (adopt (ptr_ u) (released w))
  | Destroy i =>
      exists u, objects w !! i = Some u
        /\ w' = World (delete i (objects w)) (log w ++ dropped (ptr_ u))
                      (adopted w) (released w)
  end.
Proof.
  intros Hd. destruct o as [i p d|i j|i j|i p|i|i]; simpl.
  - destruct (objects w !! i); [done|]. naive_solver.
  - destruct (objects w !! i); [done|]. destruct (objects w !! j) as [other|]; [|done].
    intros [= <-]. by exists other.
  - destruct (objects w !! i) as [this|] eqn:Ei; [|done].
    destruct (objects w !! j) as [other|] eqn:Ej; [|done].
    case_decide as Hij.
    + intros [= <-]. exists this, other. naive_solver.
    + rewrite move_assign_returns by by eapply Hd. simpl. intros [= <-].
      exists this, other. naive_solver.
  - destruct (objects w !! i) as [u|] eqn:Ei; [|done].
    rewrite reset_returns by by eapply Hd. simpl. intros [= <-]. by exists u.
  - destruct (objects w !! i) as [u|] eqn:Ei; [|done]. intros [= <-]. by exists u.
  - destruct (objects w !! i) as [u|] eqn:Ei; [|done]. unfold destroy.
    rewrite reset_returns by by eapply Hd. simpl. intros [= <-]. by exists u.
Qed.

Ltac sound_simpl :=
  repeat first
    [ setoid_rewrite owns_insert
    | setoid_rewrite owns_delete
    | setoid_rewrite elem_of_adopt
    | setoid_rewrite elem_of_app
    | setoid_rewrite elem_of_dropped ].

Lemma step_sound (ver : version) (o : op) (w w' : world) :
  sound w -> proper w o -> step ver o w = Some w' -> sound w'.
Proof.
  intros (S1 & S2 & S3 & S4 & S5 & S6 & S7) Hp Hs.
  pose proof (step_returns ver o w w' S7 Hs) as Hw. clear Hs.
  destruct o as [i p d|i j|i j|i p|i|i]; simpl in Hp, Hw.
  - destruct Hw as (Hi & ->), Hp as (Hp & Hd). unfold sound. simpl.
    assert (forall q, ~ owns (objects w) i q) as Hno.
    { intros q (u & Hu & _). congruence. }
    split_and!.
    + sound_simpl. intros k1 k2 q [?|[? H1]] [?|[? H2]]; [naive_solver| | |by eapply S1].
      * destruct (S2 _ _ H2) as (Ha & _). naive_solver.
      * destruct (S2 _ _ H1) as (Ha & _). naive_solver.
    + sound_simpl. intros k q [(-> & <- & Hq)|[? H1]].
      * simpl. split_and!; [naive_solver| |].
        -- intros Hl. destruct (S4 _ Hl). naive_solver.
        -- intros Hr. specialize (S5 _ Hr). naive_solver.
      * destruct (S2 _ _ H1) as (? & ? & ?). naive_solver.
    + done.
    + sound_simpl. intros q Hq. destruct (S4 _ Hq). naive_solver.
    + sound_simpl. intros q Hq. specialize (S5 _ Hq). naive_solver.
    + sound_simpl. intros q [(-> & Hq)|Hq].
      * split; [done|]. right. right. exists i. left. done.
      * destruct (S6 _ Hq) as (? & [?|[?|(k & Hk)]]); split; try done; eauto.
        right. right. exists k. right. split; [|done]. intros ->. by eapply Hno.
    + intros k u q [(-> & ->)|(? & Hk)]%lookup_insert_cases; [apply Hd|by eapply S7].
  - destruct Hw as (other & Hi & Hj & ->). unfold sound. simpl.
    assert (forall q, ~ owns (objects w) i q) as Hno.
    { intros q (u & Hu & _). congruence. }
    assert (i <> j) as Hij by (intros ->; congruence).
    split_and!.
    + sound_simpl. simpl. intros k1 k2 q H1 H2.
      assert (forall k, k <> j -> owns (objects w) k (ptr_ other) -> False) as Hother.
      { intros k Hk Ho. destruct Ho as (u' & Hu & E & Hne).
        rewrite <- E in Hne. apply Hk.
        apply (S1 k j (ptr_ u')); [by exists u'|]. exists other.
        split_and!; [done|congruence|done]. }
      destruct H1 as [(? & ? & ?)|[? [(? & ? & ?)|[? H1]]]],
               H2 as [(? & ? & ?)|[? [(? & ? & ?)|[? H2]]]];
        simplify_eq/=; try done; try (exfalso; by eapply Hother).
      by eapply S1.
    + sound_simpl. simpl. intros k q [(-> & <- & Hq)|[? [(-> & ? & ?)|[? H1]]]]; try done.
      * by apply (S2 j), owns_lookup.
      * by eapply S2.
    + done.
    + done.
    + done.
    + sound_simpl. simpl. intros q Hq.
      destruct (S6 _ Hq) as (? & [?|[?|(k & Hk)]]); split; try done; eauto.
      right. right. destruct (decide (k = j)) as [->|].
      * exists i. left. destruct Hk as (u & Hu & <- & ?). by simplify_eq.
      * exists k. right. split; [intros ->; by eapply Hno|]. right. done.
    + intros k u q [(-> & ->)|(? & [(-> & ->)|(? & Hk)]%lookup_insert_cases)]%lookup_insert_cases;
        simpl; by eapply S7.
  - destruct Hw as (this & other & Hi & Hj & [(-> & ->)|(Hij & ->)]).
    { by unfold sound. }
    unfold sound. simpl.
    assert (ptr_ this <> 0 -> owns (objects w) i (ptr_ this)) as Hthis
      by by apply owns_lookup.
    split_and!.
    + sound_simpl. simpl. intros k1 k2 q H1 H2.
      assert (forall k, k <> j -> owns (objects w) k (ptr_ other) -> False) as Hother.
      { intros k Hk Ho. destruct Ho as (u' & Hu & E & Hne).
        rewrite <- E in Hne. apply Hk.
        apply (S1 k j (ptr_ u')); [by exists u'|]. exists other.
        split_and!; [done|congruence|done]. }
      destruct H1 as [(? & ? & ?)|[? [(? & ? & ?)|[? H1]]]],
               H2 as [(? & ? & ?)|[? [(? & ? & ?)|[? H2]]]];
        simplify_eq/=; try done; try (exfalso; by eapply Hother).
      by eapply S1.
    + sound_simpl. simpl. intros k q [(-> & <- & Hq)|[? [(-> & ? & ?)|[? H1]]]]; try done.
      * destruct (S2 j (ptr_ other)) as (? & ? & ?); [by apply owns_lookup|].
        split_and!; [done| |done]. intros [?|(E & Hne)]; [done|].
        specialize (Hthis Hne). rewrite <- E in Hthis.
        apply (owns_lookup _ _ _ Hj) in Hq. by specialize (S1 _ _ _ Hthis Hq).
      * destruct (S2 _ _ H1) as (? & ? & ?).
        split_and!; [done| |done]. intros [?|(-> & Hne)]; [done|].
        by specialize (S1 _ _ _ H1 (Hthis Hne)).
    + apply NoDup_dropped; [done|]. intros Hne. by apply (S2 _ _ (Hthis Hne)).
    + sound_simpl. intros q [Hq|(-> & Hne)]; [by apply S4|].
      destruct (S2 _ _ (Hthis Hne)) as (? & ? & ?). done.
    + done.
    + sound_simpl. simpl. intros q Hq.
      destruct (S6 _ Hq) as (? & [?|[?|(k & Hk)]]); split; try done; eauto.
      destruct (decide (k = j)) as [->|].
      * right. right. exists i. left. destruct Hk as (u & Hu & <- & ?). by simplify_eq.
      * destruct (decide (k = i)) as [->|].
        -- left. right. destruct Hk as (u & Hu & <- & ?). by simplify_eq.
        -- right. right. exists k. right. split; [done|]. right. done.
    + intros k u q [(-> & ->)|(? & [(-> & ->)|(? & Hk)]%lookup_insert_cases)]%lookup_insert_cases;
        simpl; by eapply S7.
  - destruct Hw as (u & Hi & ->). unfold sound. simpl.
    assert (ptr_ u <> 0 -> owns (objects w) i (ptr_ u)) as Hthis by by apply owns_lookup.
    split_and!.
    + sound_simpl. simpl. intros k1 k2 q [?|[? H1]] [?|[? H2]]; [naive_solver| | |by eapply S1].
      * destruct (S2 _ _ H2) as (Ha & _). naive_solver.
      * destruct (S2 _ _ H1) as (Ha & _). naive_solver.
    + sound_simpl. simpl. intros k q [(-> & <- & Hq)|[? H1]].
      * split_and!; [naive_solver| |].
        -- intros [Hl|(E & Hne)].
           ++ destruct (S4 _ Hl). naive_solver.
           ++ destruct (S2 _ _ (Hthis Hne)) as (Ha & _). rewrite <- E in Ha. naive_solver.
        -- intros Hr. specialize (S5 _ Hr). naive_solver.
      * destruct (S2 _ _ H1) as (? & ? & ?).
        split_and!; [naive_solver| |done]. intros [?|(-> & Hne)]; [done|].
        by specialize (S1 _ _ _ H1 (Hthis Hne)).
    + apply NoDup_dropped; [done|]. intros Hne. by apply (S2 _ _ (Hthis Hne)).
    + sound_simpl. intros q [Hq|(-> & Hne)].
      * destruct (S4 _ Hq). naive_solver.
      * destruct (S2 _ _ (Hthis Hne)) as (? & ? & ?). naive_solver.
    + sound_simpl. intros q Hq. specialize (S5 _ Hq). naive_solver.
    + sound_simpl. simpl. intros q [(-> & Hq)|Hq].
      * split; [done|]. right. right. exists i. left. done.
      * destruct (S6 _ Hq) as (? & [?|[?|(k & Hk)]]); split; try done; eauto.
        destruct (decide (k = i)) as [->|].
        -- left. right. destruct Hk as (u' & Hu & <- & ?). by simplify_eq.
        -- right. right. exists k. right. done.
    + intros k u' q [(-> & ->)|(? & Hk)]%lookup_insert_cases; simpl; by eapply S7.
  - destruct Hw as (u & Hi & ->). unfold sound. simpl.
    assert (ptr_ u <> 0 -> owns (objects w) i (ptr_ u)) as Hthis by by apply owns_lookup.
    split_and!.
    + sound_simpl. simpl. intros k1 k2 q [?|[? H1]] [?|[? H2]]; [naive_solver..|by eapply S1].
    + sound_simpl. simpl. intros k q [(-> & <- & Hq)|[? H1]]; [done|].
      destruct (S2 _ _ H1) as (? & ? & ?).
      split_and!; [done|done|]. intros [(-> & Hne)|?]; [|done].
      by specialize (S1 _ _ _ H1 (Hthis Hne)).
    + done.
    + sound_simpl. intros q Hq. destruct (S4 _ Hq) as (? & ?). split; [done|].
      intros [(-> & Hne)|?]; [|done].
      destruct (S2 _ _ (Hthis Hne)) as (_ & Hn & _). by apply Hn.
    + sound_simpl. intros q [(-> & Hne)|Hq]; [|by apply S5].
      by destruct (S2 _ _ (Hthis Hne)) as (Ha & _).
    + sound_simpl. simpl. intros q Hq.
      destruct (S6 _ Hq) as (? & [?|[?|(k & Hk)]]); split; try done; eauto.
      destruct (decide (k = i)) as [->|].
      * right. left. left. destruct Hk as (u' & Hu & <- & ?). by simplify_eq.
      * right. right. exists k. right. done.
    + intros k u' q [(-> & ->)|(? & Hk)]%lookup_insert_cases; simpl; by eapply S7.
  - destruct Hw as (u & Hi & ->). unfold sound. simpl.
    assert (ptr_ u <> 0 -> owns (objects w) i (ptr_ u)) as Hthis by by apply owns_lookup.
    split_and!.
    + sound_simpl. intros k1 k2 q [? H1] [? H2]. by eapply S1.
    + sound_simpl. intros k q [? H1]. destruct (S2 _ _ H1) as (? & ? & ?).
      split_and!; [done| |done]. intros [?|(-> & Hne)]; [done|].
      by specialize (S1 _ _ _ H1 (Hthis Hne)).
    + apply NoDup_dropped; [done|]. intros Hne. by apply (S2 _ _ (Hthis Hne)).
    + sound_simpl. intros q [Hq|(-> & Hne)]; [by apply S4|].
      destruct (S2 _ _ (Hthis Hne)) as (? & ? & ?). done.
    + done.
    + sound_simpl. intros q Hq.
      destruct (S6 _ Hq) as (? & [?|[?|(k & Hk)]]); split; try done; eauto.
      destruct (decide (k = i)) as [->|].
      * left. right. destruct Hk as (u' & Hu & <- & ?). by simplify_eq.
      * right. right. exists k. done.
    + intros k u' q [? Hk]%lookup_delete_Some. by eapply S7.
Qed.

Lemma start_sound : sound start.
Proof.
  unfold sound, start, owns. simpl. split_and!; try done.
  all: first [ intros i j q (u & Hu & _); by rewrite lookup_empty in Hu
             | intros i q (u & Hu & _); by rewrite lookup_empty in Hu
             | intros q Hq; by apply elem_of_nil in Hq
             | intros q Hq; by apply elem_of_empty in Hq
             | by constructor ].
Qed.

Lemma run_sound (ver : version) (os : list op) : forall w w',
  sound w -> proper_all ver os w -> run ver os w = Some w' -> sound w'.
Proof.
  induction os as [|o os IH]; intros w w' Hs Hp Hr; simpl in *; [by simplify_eq|].
  destruct Hp as [Ho Hp]. destruct (step ver o w) as [w1|] eqn:E; [|done].
  eapply IH; [by eapply step_sound|done|done].
Qed.

Lemma step_versions (ver ver' : version) (o : op) (w : world) :
  (forall i u q, objects w !! i = Some u -> deleter_ u q = false) ->
  step ver o w = step ver' o w.
Proof.
  intros Hd. destruct o as [i p d|i j|i j|i p|i|i]; simpl; try done.
  - destruct (objects w !! i) as [this|] eqn:Ei; [|done].
    destruct (objects w !! j) as [other|] eqn:Ej; [|done].
    case_decide; [done|]. by rewrite !move_assign_returns by by eapply Hd.
  - destruct (objects w !! i) as [u|] eqn:Ei; [|done].
    by rewrite !reset_returns by by eapply Hd.
  - destruct (objects w !! i) as [u|] eqn:Ei; [|done]. unfold destroy.
    by rewrite !reset_returns by by eapply Hd.
Qed.

Lemma run_versions (ver ver' : version) (os : list op) : forall w,
  sound w -> proper_all ver os w -> run ver os w = run ver' os w.
Proof.
  induction os as [|o os IH]; intros w Hs Hp; simpl in *; [done|].
  destruct Hp as [Ho Hp]. pose proof Hs as (_ & _ & _ & _ & _ & _ & S7).
  rewrite <- (step_versions ver ver' o w S7).
  destruct (step ver o w) as [w1|] eqn:E; [|done].
  apply IH; [by eapply step_sound|done].
Qed.

(** X18. Unique ownership.  In a program whose deleters return and
    that hands every raw pointer to a unique pointer at most once, after
    any sequence of constructions, moves, resets, releases and
    destructions: no pointer has been passed to a deleter twice; no two
    objects hold the same pointer and none holds a pointer that was
    deleted or released; every pointer ever handed over is held by an
    object, was deleted, or was released, so that with all objects
    destroyed each one was deleted exactly once or released; no member
    function throws; and both versions of the class behave the same. *)
Theorem ownership_is_unique (ver : version) (os : list op) (w : world) :
  proper_all ver os start ->
  run ver os start = Some w ->
  NoDup (log w)
  /\ (forall i j q, owns (objects w) i q -> owns (objects w) j q -> i = j)
  /\ (forall i q, owns (objects w) i q -> ~ q ∈ log w /\ ~ q ∈ released w)
  /\ (forall q, q ∈ adopted w ->
        q ∈ log w \/ q ∈ released w \/ exists i, owns (objects w) i q)
  /\ (forall q, q ∈ log w -> q ∈ adopted w /\ ~ q ∈ released w)
  /\ (objects w = ∅ -> forall q, q ∈ adopted w <-> q ∈ log w \/ q ∈ released w)
  /\ (forall i u p, objects w !! i = Some u ->
        thrown (reset ver p u) = false /\ deleted (reset ver p u) = dropped (ptr_ u))
  /\ run v1 os start = run v2 os start.
Proof.
  intros Hp Hr.
  pose proof (run_sound ver os start w start_sound Hp Hr)
    as (S1 & S2 & S3 & S4 & S5 & S6 & S7).
  split_and!; try done.
  - intros i q Ho. destruct (S2 _ _ Ho) as (_ & ? & ?). done.
  - intros q Hq. by destruct (S6 _ Hq).
  - intros He q. split.
    + intros Hq. destruct (S6 _ Hq) as (_ & [?|[?|(i & u & Hu & _)]]); [by left|by right|].
      rewrite He, lookup_empty in Hu. done.
    + intros [Hq|Hq]; [by apply S4|by apply S5].
  - intros i u p Hu. rewrite reset_returns by by eapply S7. done.
  - transitivity (run ver os start);
      [symmetry|]; by apply run_versions; [apply start_sound|].
Qed.

Lemma ownership_is_unique_witness :
  exists w,
    run v2 [Construct 0 5 (fun _ => false); Construct 1 6 (fun _ => false);
            MoveAssign 1 0; Destroy 1; Destroy 0] start = Some w
    /\ NoDup (log w)
    /\ (objects w = ∅ -> forall q, q ∈ adopted w <-> q ∈ log w \/ q ∈ released w).
Proof.
  assert (proper_all v2 [Construct 0 5 (fun _ => false); Construct 1 6 (fun _ => false);
                         MoveAssign 1 0; Destroy 1; Destroy 0] start) as Hp.
  { cbn. split; [split; [right; set_solver|done]|].
    split; [split; [right; unfold adopt; simpl; set_solver|done]|]. done. }
  destruct (run v2 [Construct 0 5 (fun _ => false); Construct 1 6 (fun _ => false);
                    MoveAssign 1 0; Destroy 1; Destroy 0] start) as [w|] eqn:Hr;
    [|by vm_compute in Hr].
  exists w. split; [done|].
  destruct (ownership_is_unique v2 _ w Hp Hr) as (H1 & _ & _ & _ & _ & H6 & _).
  by split.
Defined.

End UniquePointer.
